(** * VC4C: memory-operand classification and control-flow loop queries

    A shallow embedding of [src/intermediate/MemoryInstruction.cpp] and of the
    loop interface declared in [src/analysis/ControlFlowLoop.h].

    Locals live in an arena addressed by integer handles; the use-lists of a
    local are stored with the local, so that the recursion of
    [isDerivedFromMemory] over the writers of a local runs over the store.
    That recursion is not structural in the C++ code (a cyclic chain of moves
    makes it run forever), hence the fuel argument and the [OutOfFuel]
    outcome. *)

From Stdlib Require Import ZArith String.
From stdpp Require Import base decidable option list gmap.

Set Warnings "-register-all,-clear-no-such-hyp".
Local Open Scope Z_scope.

(** ** Outcomes: a value, a thrown [CompilationError], or fuel exhausted *)

Inductive CompilationStep := GENERAL | LLVM_2_IR | OPTIMIZER.

Record CompilationError := mkError {
  errStep : CompilationStep;
  errMessage : string
}.

Inductive outcome (A : Type) : Type :=
| Done (a : A)
| Throw (e : CompilationError)
| OutOfFuel.
Arguments Done {A} a.
Arguments Throw {A} e.
Arguments OutOfFuel {A}.

#[global] Instance outcome_ret : MRet outcome := fun A a => Done a.
#[global] Instance outcome_bind : MBind outcome := fun A B f m =>
  match m with
  | Done a => f a
  | Throw e => Throw e
  | OutOfFuel => OutOfFuel
  end.

Definition throws {A} (m : outcome A) : Prop := ∃ e, m = Throw e.

(** ** Types and values *)

Inductive AddressSpace := AS_GENERIC | AS_PRIVATE | AS_GLOBAL | AS_CONSTANT | AS_LOCAL.

#[global] Instance AddressSpace_eq_dec : EqDecision AddressSpace.
Proof. solve_decision. Defined.

Inductive DataType :=
| SimpleType (bitWidth numElements : Z) (isFloatingPoint : bool)
| PointerType (elementType : DataType) (addressSpace : AddressSpace)
| ArrayType (elementType : DataType) (size : Z)
| StructType (elementTypes : list DataType)
| ImageType.

Definition TYPE_INT8 : DataType := SimpleType 8 1 false.
Definition TYPE_INT32 : DataType := SimpleType 32 1 false.

Definition getPointerType (t : DataType) : option (DataType * AddressSpace) :=
  match t with PointerType e a => Some (e, a) | _ => None end.

Definition getArrayType (t : DataType) : option (DataType * Z) :=
  match t with ArrayType e n => Some (e, n) | _ => None end.

Definition getStructType (t : DataType) : option (list DataType) :=
  match t with StructType es => Some es | _ => None end.

Definition toArrayType (t : DataType) (n : Z) : DataType := ArrayType t n.

(** The helpers of [DataType] and of the VPM periphery that
    [MemoryInstruction.cpp] calls but that are declared elsewhere
    ([DataType::getElementType], [DataType::getPhysicalWidth],
    [periphery::VPM::getVPMStorageType]) and the two hardware constants are
    taken as an interface. *)
Class Periphery := {
  getElementType : DataType → DataType;
  getPhysicalWidth : DataType → Z;
  getVPMStorageType : DataType → DataType;
  NUM_QPUS : Z;
  VPM_DEFAULT_SIZE : Z
}.

Definition LocalId := nat.
Bind Scope nat_scope with LocalId.

Inductive Literal := Lit (bits : Z).

#[global] Instance Literal_eq_dec : EqDecision Literal.
Proof. solve_decision. Defined.

Definition unsignedInt (l : Literal) : Z :=
  match l with Lit z => z mod 2 ^ 32 end.

Inductive ValueData :=
| VLiteral (l : Literal)
| VRegister (r : nat)
| VLocal (l : LocalId)
| VUndefined.

#[global] Instance ValueData_eq_dec : EqDecision ValueData.
Proof. solve_decision. Defined.

Record Value := mkValue { vdata : ValueData; vtype : DataType }.

Definition checkLocal (v : Value) : option LocalId :=
  match vdata v with VLocal l => Some l | _ => None end.

Definition local (v : Value) : outcome LocalId :=
  match checkLocal v with
  | Some l => Done l
  | None => Throw (mkError GENERAL "Cannot get local of non-local value")
  end.

Definition getLiteralValue (v : Value) : option Literal :=
  match vdata v with VLiteral l => Some l | _ => None end.

Definition isLiteralValue (v : Value) : bool := bool_decide (is_Some (getLiteralValue v)).

Definition hasPointerType (v : Value) : bool :=
  bool_decide (is_Some (getPointerType (vtype v))).

(** Modelled from the spec: [Value::operator==] is declared outside these
    sources; the count of a READ or WRITE "must evaluate to the literal 1",
    so two values are equal when they hold the same content. *)
Definition Value_eqb (a b : Value) : bool := bool_decide (vdata a = vdata b).

Definition INT_ONE : Value := mkValue (VLiteral (Lit 1)) TYPE_INT8.

(** ** Instructions as users of locals *)

Inductive MemoryOperation := COPY | FILL | READ | WRITE.

#[global] Instance MemoryOperation_eq_dec : EqDecision MemoryOperation.
Proof. solve_decision. Defined.

Record MemoryInstruction := mkMemoryInstruction {
  op : MemoryOperation;
  getDestination : Value;
  getSource : Value;
  getNumEntries : Value
}.

Inductive OpCode := OP_ADD | OP_SUB | OP_MUL24 | OP_AND | OP_OR | OP_XOR | OP_SHL | OP_SHR.

#[global] Instance OpCode_eq_dec : EqDecision OpCode.
Proof. solve_decision. Defined.

Record Operation := mkOperation {
  opcode : OpCode;
  getFirstArg : Value;
  getSecondArg : option Value
}.

Definition assertArgument1 (o : Operation) : outcome Value :=
  match getSecondArg o with
  | Some v => Done v
  | None => Throw (mkError GENERAL "Argument index out of bounds")
  end.

(** The instruction kinds that [isDerivedFromMemory] tells apart by
    [dynamic_cast]; every other kind of instruction is [UOther]. *)
Inductive LocalUser :=
| UMove (source : Value)
| UMemory (mi : MemoryInstruction)
| UOperation (o : Operation)
| UOther.

Record LocalUse := mkUse { numReads : nat; numWrites : nat }.

Definition writesLocal (u : LocalUse) : bool := bool_decide (0 < numWrites u)%nat.

(** The classes of locals that the code tells apart with [is<T>()]: a plain
    [Local], a [Parameter], a [Global] with its [isConstant] flag, a
    [StackAllocation]. *)
Inductive LocalKind :=
| KLocal
| KParameter
| KGlobal (isConstant : bool)
| KStackAllocation.

(** [Local::getBase] is declared outside these sources; its result for
    [includeOffsets = true], the origin local that a derived local refers to
    (the local itself when it refers to no other), is kept with the local.
    [getUsers] maps every instruction that uses the local to its reads and
    writes. *)
Record Local := mkLocal {
  kind : LocalKind;
  type : DataType;
  getBase : LocalId;
  getUsers : list (LocalUser * LocalUse)
}.

Abbreviation Store := (LocalId → Local).

Definition isParameter (l : Local) : bool :=
  match kind l with KParameter => true | _ => false end.

Definition isGlobal (l : Local) : bool :=
  match kind l with KGlobal _ => true | _ => false end.

Definition isStackAllocation (l : Local) : bool :=
  match kind l with KStackAllocation => true | _ => false end.

Definition asGlobal (l : Local) : option bool :=
  match kind l with KGlobal c => Some c | _ => None end.

(** Modelled from the spec: [Local::residesInMemory] is declared outside these
    sources; the spec names the origins that reside in memory, "Global or
    StackAllocation origins". *)
Definition residesInMemory (l : Local) : bool := isGlobal l || isStackAllocation l.

(** ** [isDerivedFromMemory] *)

(** [forUsers(LocalUse::Type::WRITER, consumer)]: the consumer runs on every
    writer, never stopping early; [acc] is [allSourcesDerivedFromMemory] and a
    consumer that answers [false] clears it. *)
Fixpoint forWriters (consumer : LocalUser → outcome bool)
    (users : list (LocalUser * LocalUse)) (acc : bool) : outcome bool :=
  match users with
  | [] => Done acc
  | (user, use) :: rest =>
      if writesLocal use
      then keep ← consumer user; forWriters consumer rest (acc && keep)
      else forWriters consumer rest acc
  end.

(** The body of the lambda: [Done true] where the lambda leaves
    [allSourcesDerivedFromMemory] alone, [Done false] where it clears it.  A
    move of a value that is no local is taken by none of the three branches
    and falls to the last [else]; the branches for a pointer plus an offset
    end in a bare [return]. *)
Definition writerConsumer (recurse : LocalId → outcome bool) (user : LocalUser) : outcome bool :=
  match user with
  | UMove source =>
      match checkLocal source with
      | Some l => recurse l
      | None => Done false
      end
  | UMemory _ => Done true
  | UOperation o =>
      if bool_decide (opcode o ≠ OP_ADD) && bool_decide (opcode o ≠ OP_SUB) then Done false
      else
        firstIsPointer ←
          (if bool_decide (is_Some (checkLocal (getFirstArg o))) && hasPointerType (getFirstArg o)
           then second ← assertArgument1 o; Done (negb (hasPointerType second))
           else Done false);
        if firstIsPointer : bool then Done true
        else
          second ← assertArgument1 o;
          if bool_decide (is_Some (checkLocal second)) && negb (hasPointerType (getFirstArg o))
             && hasPointerType second
          then Done true
          else Done false
  | UOther => Done false
  end.

Fixpoint isDerivedFromMemory (fuel : nat) (st : Store) (l : LocalId) : outcome bool :=
  match fuel with
  | O => OutOfFuel
  | S fuel' =>
      let base := st (getBase (st l)) in
      if residesInMemory base || isParameter base then Done true
      else forWriters (writerConsumer (isDerivedFromMemory fuel' st)) (getUsers (st l)) true
  end.
Arguments isDerivedFromMemory fuel%_nat st l%_nat.

(** ** Validation of operands *)

Definition checkMemoryLocation (fuel : nat) (st : Store) (val : Value) : outcome unit :=
  if negb (hasPointerType val)
  then Throw (mkError LLVM_2_IR "Operand needs to be a pointer")
  else
    match checkLocal val with
    | None =>
        Throw (mkError LLVM_2_IR
                 "Operand needs to refer to a memory location or a parameter containing one")
    | Some l =>
        derived ← isDerivedFromMemory fuel st l;
        if derived : bool then Done ()
        else Throw (mkError LLVM_2_IR
                      "Operand needs to refer to a memory location or a parameter containing one")
    end.

Definition checkLocalValue (st : Store) (val : Value) : outcome unit :=
  match checkLocal val with
  | Some l =>
      if residesInMemory (st l)
         || (isParameter (st l)
             && (bool_decide (is_Some (getPointerType (type (st l))))
                 || bool_decide (is_Some (getArrayType (type (st l))))))
      then Throw (mkError LLVM_2_IR "Operand needs to be a local value (local, register)")
      else Done ()
  | None => Done ()
  end.

Definition checkSingleValue (val : Value) : outcome unit :=
  if bool_decide (getLiteralValue val = Some (Lit 1)) then Done ()
  else Throw (mkError LLVM_2_IR "Operand needs to the constant one").

(** ** The constructor and the constant queries *)

(** [MemoryInstruction::MemoryInstruction]: the instruction is built only when
    the entry count is [INT_ONE] or the operation copies or fills. *)
Definition newMemoryInstruction (op : MemoryOperation) (dest src numEntries : Value)
  : outcome MemoryInstruction :=
  if negb (Value_eqb numEntries INT_ONE)
  then
    if bool_decide (op ≠ COPY) && bool_decide (op ≠ FILL)
    then Throw (mkError LLVM_2_IR "Can only use the entry count for copying or filling memory")
    else Done (mkMemoryInstruction op dest src numEntries)
  else Done (mkMemoryInstruction op dest src numEntries).

Definition isNormalized (mi : MemoryInstruction) : bool := false.

Definition hasSideEffects (mi : MemoryInstruction) : bool := true.

(** ** Lowering into the VPM *)

Definition UINT_MAX_PLUS_ONE : Z := 2 ^ 32.

Section VPM.
Context {hw : Periphery}.

Definition isStructOrArrayOfStructs (elementType : DataType) : bool :=
  bool_decide (is_Some (getStructType elementType))
  || match getArrayType elementType with
     | Some (inner, _) => bool_decide (is_Some (getStructType inner))
     | None => false
     end.

(** The address branch of [canMoveIntoVPM], after [checkMemoryLocation]; the
    product of the stack case is an [unsigned] product. *)
Definition canMoveAddressIntoVPM (base : Local) : bool :=
  if isStructOrArrayOfStructs (getElementType (type base)) then false
  else
    let inVPMType := getVPMStorageType (getElementType (type base)) in
    if VPM_DEFAULT_SIZE <? getPhysicalWidth inVPMType then false
    else
      match asGlobal base with
      | Some isConstant =>
          isConstant
          || match getPointerType (type base) with
             | Some (_, addressSpace) => bool_decide (addressSpace = AS_LOCAL)
             | None => false
             end
      | None =>
          if isParameter base then false
          else if isStackAllocation base
          then (getPhysicalWidth inVPMType * NUM_QPUS) mod UINT_MAX_PLUS_ONE <? VPM_DEFAULT_SIZE
          else false
      end.

Definition canMoveIntoVPM (fuel : nat) (st : Store) (val : Value) (isMemoryAddress : bool)
  : outcome bool :=
  if isMemoryAddress
  then
    checkMemoryLocation fuel st val;;
    l ← local val;
    Done (canMoveAddressIntoVPM (st (getBase (st l))))
  else
    match checkLocal val with
    | None => Done false
    | Some l => Done (forallb (λ _, false) (getUsers (st l)))
    end.

Definition canMoveSourceIntoVPM (fuel : nat) (st : Store) (mi : MemoryInstruction) : outcome bool :=
  (if bool_decide (op mi = READ) || bool_decide (op mi = WRITE)
   then checkSingleValue (getNumEntries mi) else Done ());;
  canMoveIntoVPM fuel st (getSource mi) (bool_decide (op mi = COPY) || bool_decide (op mi = READ)).

Definition canMoveDestinationIntoVPM (fuel : nat) (st : Store) (mi : MemoryInstruction)
  : outcome bool :=
  (if bool_decide (op mi = READ) || bool_decide (op mi = WRITE)
   then checkSingleValue (getNumEntries mi) else Done ());;
  canMoveIntoVPM fuel st (getDestination mi) (bool_decide (op mi ≠ READ)).

End VPM.

(** ** The derived queries *)

(** [val.local()->getBase(true)] *)
Definition baseOf (st : Store) (val : Value) : outcome Local :=
  l ← local val; Done (st (getBase (st l))).

Definition isConstantGlobal (l : Local) : bool :=
  isGlobal l && match asGlobal l with Some c => c | None => false end.

Definition isGlobalWithLocalAddressSpace (l : Local) : outcome bool :=
  if isGlobal l
  then match getPointerType (type l) with
       | Some (_, addressSpace) => Done (bool_decide (addressSpace = AS_LOCAL))
       | None => Throw (mkError GENERAL "Dereferencing the pointer type of a non-pointer")
       end
  else Done false.

(** The four queries [accessesConstantGlobal], [accessesStackAllocation],
    [accessesLocalMemory] and [getMemoryAreas] share one [switch]: the
    validated operands of the operation and, for [COPY], the combination of the
    answers for source and destination.  The second operand of [||] is only
    evaluated when the first is [false]. *)
Definition accessesWith (test : Local → outcome bool)
    (fuel : nat) (st : Store) (mi : MemoryInstruction) : outcome bool :=
  match op mi with
  | COPY =>
      checkMemoryLocation fuel st (getSource mi);;
      checkMemoryLocation fuel st (getDestination mi);;
      sourceBase ← baseOf st (getSource mi);
      fromSource ← test sourceBase;
      if fromSource : bool then Done true
      else destinationBase ← baseOf st (getDestination mi); test destinationBase
  | FILL =>
      checkMemoryLocation fuel st (getDestination mi);;
      destinationBase ← baseOf st (getDestination mi); test destinationBase
  | READ =>
      checkMemoryLocation fuel st (getSource mi);;
      sourceBase ← baseOf st (getSource mi); test sourceBase
  | WRITE =>
      checkMemoryLocation fuel st (getDestination mi);;
      destinationBase ← baseOf st (getDestination mi); test destinationBase
  end.

Definition accessesConstantGlobal := accessesWith (λ l, Done (isConstantGlobal l)).

Definition accessesStackAllocation := accessesWith (λ l, Done (isStackAllocation l)).

Definition accessesLocalMemory := accessesWith isGlobalWithLocalAddressSpace.

Definition getMemoryAreas (fuel : nat) (st : Store) (mi : MemoryInstruction)
  : outcome (gset LocalId) :=
  match op mi with
  | COPY =>
      checkMemoryLocation fuel st (getSource mi);;
      checkMemoryLocation fuel st (getDestination mi);;
      s ← local (getSource mi);
      d ← local (getDestination mi);
      Done ({[ getBase (st s) ]} ∪ {[ getBase (st d) ]})
  | FILL =>
      checkMemoryLocation fuel st (getDestination mi);;
      d ← local (getDestination mi); Done {[ getBase (st d) ]}
  | READ =>
      checkMemoryLocation fuel st (getSource mi);;
      s ← local (getSource mi); Done {[ getBase (st s) ]}
  | WRITE =>
      checkMemoryLocation fuel st (getDestination mi);;
      d ← local (getDestination mi); Done {[ getBase (st d) ]}
  end.

Section ElementTypes.
Context {hw : Periphery}.

(** The sized pointed-to type of [COPY] and [FILL]. *)
Definition sizedElementType (mi : MemoryInstruction) (elementType : DataType) (sizedType : bool)
  : outcome DataType :=
  if negb sizedType then Done elementType
  else
    match getLiteralValue (getNumEntries mi) with
    | None =>
        Throw (mkError GENERAL "Cannot calculate type-size from dynamically sized memory-operation")
    | Some count => Done (toArrayType elementType (unsignedInt count))
    end.

Definition getSourceElementType (sizedType : bool) (fuel : nat) (st : Store)
    (mi : MemoryInstruction) : outcome DataType :=
  match op mi with
  | COPY =>
      checkMemoryLocation fuel st (getSource mi);;
      sizedElementType mi (getElementType (vtype (getSource mi))) sizedType
  | FILL =>
      checkLocalValue st (getSource mi);;
      Done (vtype (getSource mi))
  | READ =>
      checkMemoryLocation fuel st (getSource mi);;
      checkSingleValue (getNumEntries mi);;
      Done (getElementType (vtype (getSource mi)))
  | WRITE =>
      checkLocalValue st (getSource mi);;
      checkSingleValue (getNumEntries mi);;
      Done (vtype (getSource mi))
  end.

Definition getDestinationElementType (sizedType : bool) (fuel : nat) (st : Store)
    (mi : MemoryInstruction) : outcome DataType :=
  match op mi with
  | COPY | FILL =>
      checkMemoryLocation fuel st (getDestination mi);;
      sizedElementType mi (getElementType (vtype (getDestination mi))) sizedType
  | READ =>
      checkLocalValue st (getDestination mi);;
      checkSingleValue (getNumEntries mi);;
      Done (vtype (getDestination mi))
  | WRITE =>
      checkMemoryLocation fuel st (getDestination mi);;
      checkSingleValue (getNumEntries mi);;
      Done (getElementType (vtype (getDestination mi)))
  end.

End ElementTypes.

(** ** Control-flow loops ([namespace analysis]) *)

Module analysis.

Definition CFGNode := nat.
Bind Scope nat_scope with CFGNode.

(** The control-flow graph is consumed read-only: a start node and the edges
    between basic blocks, each navigable in both directions. *)
Record ControlFlowGraph := mkCFG {
  startNode : CFGNode;
  edges : list (CFGNode * CFGNode)
}.

(** [class ControlFlowLoop : public FastSet<const CFGNode*>] with its private
    [backEdge] (a pointer, possibly null). *)
Record ControlFlowLoop := mkLoop {
  loopNodes : gset CFGNode;
  backEdge : option (CFGNode * CFGNode)
}.

(** A walk from [x] to [z] with the nodes it visits, both ends included. *)
Inductive walk (g : ControlFlowGraph) : CFGNode → CFGNode → list CFGNode → Prop :=
| walk_end x : walk g x x [x]
| walk_edge x y z p : (x, y) ∈ edges g → walk g y z p → walk g x z (x :: p).

Definition dominates (g : ControlFlowGraph) (n x : CFGNode) : Prop :=
  ∀ p, walk g (startNode g) x p → n ∈ p.

(** The natural loop of a back edge [m -> n], where [n] dominates [m], as the
    comment on [ControlFlowLoop] defines it: the nodes [x] such that [n]
    dominates [x] and there is a path from [x] to [m] not containing [n],
    together with [n] itself. *)
Definition isNaturalLoop (g : ControlFlowGraph) (l : ControlFlowLoop) (m n : CFGNode) : Prop :=
  backEdge l = Some (m, n) ∧ (m, n) ∈ edges g ∧ dominates g n m ∧
  ∀ x, x ∈ loopNodes l ↔ x = n ∨ (dominates g n x ∧ ∃ p, walk g x m p ∧ n ∉ p).

(** The graph has the single back edge [m -> n]. *)
Definition singleBackEdge (g : ControlFlowGraph) (m n : CFGNode) : Prop :=
  ∀ a b, (a, b) ∈ edges g → dominates g b a → a = m ∧ b = n.

Definition hasPredecessorOutside (g : ControlFlowGraph) (l : ControlFlowLoop) (x : CFGNode) : bool :=
  existsb (λ e, bool_decide (e.2 = x) && bool_decide (e.1 ∉ loopNodes l)) (edges g).

(** Modelled from the spec: [ControlFlowLoop::getHeader] is only declared in
    [ControlFlowLoop.h]; "the unique node in the loop with at least one
    predecessor outside the loop set; returns none if no such unique node
    exists". *)
Definition getHeader (g : ControlFlowGraph) (l : ControlFlowLoop) : option CFGNode :=
  match filter (λ x, hasPredecessorOutside g l x = true) (elements (loopNodes l)) with
  | [header] => Some header
  | _ => None
  end.

(** Modelled from the spec: [ControlFlowLoop::getTail] is only declared in
    [ControlFlowLoop.h]; "the node from which the back edge into the header
    originates", none without a back edge. *)
Definition getTail (l : ControlFlowLoop) : option CFGNode :=
  fst <$> backEdge l.

(** [x] has a direct predecessor that is not in the loop. *)
Definition enteredAt (g : ControlFlowGraph) (l : ControlFlowLoop) (x : CFGNode) : Prop :=
  ∃ p, (p, x) ∈ edges g ∧ p ∉ loopNodes l.

(** [h] is the only node of the loop with a direct predecessor outside it. *)
Definition isOnlyEntry (g : ControlFlowGraph) (l : ControlFlowLoop) (h : CFGNode) : Prop :=
  h ∈ loopNodes l ∧ enteredAt g l h ∧
  ∀ x, x ∈ loopNodes l → enteredAt g l x → x = h.

(** Modelled from the spec: [ControlFlowLoop::includes] is only declared in
    [ControlFlowLoop.h]; "true iff this loop's node set is a strict superset of
    other's". *)
Definition includes (a b : ControlFlowLoop) : bool :=
  bool_decide (loopNodes b ⊂ loopNodes a).

(** ** The loop inclusion tree *)

(** No loop of the list lies strictly between [b] and [a]. *)
Definition nothingBetween (loops : list ControlFlowLoop) (a b : ControlFlowLoop) : Prop :=
  ∀ c, c ∈ loops → ¬ (loopNodes b ⊂ loopNodes c ∧ loopNodes c ⊂ loopNodes a).

(** The forest as its edges, parent first, and its roots. *)
Record LoopInclusionTree := mkTree {
  treeEdges : list (ControlFlowLoop * ControlFlowLoop);
  treeRoots : list ControlFlowLoop
}.

(** [a] includes [b] and no loop of the list lies strictly between them. *)
Definition isInnermostIncluding (loops : list ControlFlowLoop) (a b : ControlFlowLoop) : bool :=
  includes a b && forallb (λ c, negb (includes a c && includes c b)) loops.

(** Modelled from the spec: [createLoopInclusingTree] is only declared in
    [ControlFlowLoop.h]; "B's parent in the tree is the innermost such A",
    "loops with no including loop become forest roots". *)
Definition createLoopInclusingTree (loops : list ControlFlowLoop) : LoopInclusionTree :=
  mkTree
    (b ← loops; a ← loops; if isInnermostIncluding loops a b then [(a, b)] else [])
    (filter (λ b, forallb (λ a, negb (includes a b)) loops = true) loops).

(** ** Induction variables *)

(** The comparison of a repeat condition; the code keeps its name. *)
Inductive Comparison := COMP_LT | COMP_LE | COMP_GT | COMP_GE | COMP_EQ | COMP_NEQ.

Record InductionVariable := mkInductionVariable {
  ivLocal : LocalId;
  initialAssignment : LocalUser;
  inductionStep : Operation;
  repeatCondition : option (Comparison * Value);
  conditionCheckedBeforeStep : bool
}.

Definition literalValue (l : Literal) : Z := match l with Lit z => z end.

(** Modelled from the spec: the bound queries of [InductionVariable] are only
    declared in [ControlFlowLoop.h]; "lower bound = initial assignment's
    literal value", none when the assignment does not move a literal. *)
Definition getLowerBound (iv : InductionVariable) : option Literal :=
  match initialAssignment iv with
  | UMove source => getLiteralValue source
  | _ => None
  end.

(** Modelled from the spec: "upper bound = repeat condition's literal compared
    value". *)
Definition getUpperBound (iv : InductionVariable) : option Literal :=
  '(_, compared) ← repeatCondition iv; getLiteralValue compared.

(** The operand of the step operation that is not the induction local. *)
Definition stepOperand (iv : InductionVariable) : option Value :=
  let step := inductionStep iv in
  if bool_decide (checkLocal (getFirstArg step) = Some (ivLocal iv)) then getSecondArg step
  else if bool_decide (getSecondArg step ≫= checkLocal = Some (ivLocal iv))
       then Some (getFirstArg step)
       else None.

(** Modelled from the spec: "step = literal step magnitude/sign from the update
    operation", added for an addition and taken away for a subtraction. *)
Definition getStep (iv : InductionVariable) : option Literal :=
  operand ← stepOperand iv;
  amount ← getLiteralValue operand;
  match opcode (inductionStep iv) with
  | OP_ADD => Some amount
  | OP_SUB => Some (Lit (- literalValue amount))
  | _ => None
  end.

(** Modelled from the spec: "range = |upper − lower|"; the result is an
    [unsigned]. *)
Definition getRange (iv : InductionVariable) : option N :=
  lower ← getLowerBound iv;
  upper ← getUpperBound iv;
  Some (Z.to_N (Z.abs (literalValue upper - literalValue lower))).

(** Modelled from the spec: the adjustment of the iteration count by the
    comparison and by the position of the check.  The spec fixes it for the
    strict less-than checked before the step, where the count is the range
    divided by the step; it leaves the other combinations open, and they are
    the argument [open]. *)
Definition countAdjustment (open : Comparison → bool → Z) (c : Comparison) (beforeStep : bool) : Z :=
  match c, beforeStep with
  | COMP_LT, true => 0
  | _, _ => open c beforeStep
  end.

(** Modelled from the spec: "iteration count = range divided by |step|, with a
    ±1 adjustment depending on the checked before/after step flag and the
    comparison operator's inclusivity". *)
Definition getIterationCount (open : Comparison → bool → Z) (iv : InductionVariable) : option N :=
  range ← getRange iv;
  step ← getStep iv;
  '(comparison, _) ← repeatCondition iv;
  if bool_decide (literalValue step = 0) then None
  else Some (Z.to_N (Z.of_N range / Z.abs (literalValue step)
                     + countAdjustment open comparison (conditionCheckedBeforeStep iv))).

End analysis.

(** ** The address operands of the queries *)

(** Whether the source, the destination of an operation is a memory address,
    as [canMoveSourceIntoVPM] and [canMoveDestinationIntoVPM] tell
    [canMoveIntoVPM]. *)
Definition sourceIsAddress (o : MemoryOperation) : bool :=
  bool_decide (o = COPY) || bool_decide (o = READ).

Definition destinationIsAddress (o : MemoryOperation) : bool :=
  bool_decide (o ≠ READ).

Definition addressOperands (mi : MemoryInstruction) : list Value :=
  (if sourceIsAddress (op mi) then [getSource mi] else [])
  ++ (if destinationIsAddress (op mi) then [getDestination mi] else []).

Inductive Query :=
| QAccessesConstantGlobal
| QAccessesStackAllocation
| QAccessesLocalMemory
| QGetSourceElementType (sizedType : bool)
| QGetDestinationElementType (sizedType : bool)
| QGetMemoryAreas.

(** The operands of [mi] that a query treats as memory locations. *)
Definition designatedOperands (q : Query) (mi : MemoryInstruction) : list Value :=
  match q with
  | QGetSourceElementType _ => if sourceIsAddress (op mi) then [getSource mi] else []
  | QGetDestinationElementType _ =>
      if destinationIsAddress (op mi) then [getDestination mi] else []
  | _ => addressOperands mi
  end.

(** One call of a query, forgetting the answer. *)
Definition runQuery {hw : Periphery} (q : Query) (fuel : nat) (st : Store) (mi : MemoryInstruction)
  : outcome unit :=
  match q with
  | QAccessesConstantGlobal => accessesConstantGlobal fuel st mi;; Done ()
  | QAccessesStackAllocation => accessesStackAllocation fuel st mi;; Done ()
  | QAccessesLocalMemory => accessesLocalMemory fuel st mi;; Done ()
  | QGetSourceElementType sized => getSourceElementType sized fuel st mi;; Done ()
  | QGetDestinationElementType sized => getDestinationElementType sized fuel st mi;; Done ()
  | QGetMemoryAreas => getMemoryAreas fuel st mi;; Done ()
  end.

(** A pointer-typed local that [isDerivedFromMemory] accepts. *)
Definition isMemoryLocation (fuel : nat) (st : Store) (val : Value) : Prop :=
  hasPointerType val = true ∧
  ∃ l, checkLocal val = Some l ∧ isDerivedFromMemory fuel st l = Done true.

(** ** Concrete IR fragments *)

Module fragments.

Definition intPointer (a : AddressSpace) : DataType := PointerType TYPE_INT32 a.

Definition writer : LocalUse := mkUse 0 1.
Definition reader : LocalUse := mkUse 1 0.

Definition localValue (l : LocalId) (t : DataType) : Value := mkValue (VLocal l) t.
Arguments localValue l%_nat t.
Definition literal (z : Z) : Value := mkValue (VLiteral (Lit z)) TYPE_INT32.

(** A local that is its own base. *)
Definition plain (k : LocalKind) (t : DataType) (self : LocalId)
    (users : list (LocalUser * LocalUse)) : Local :=
  mkLocal k t self users.
Arguments plain k t self%_nat users.

(** A periphery with twelve QPUs and a scratchpad of 4096 units, where a
    scalar or vector type is as wide as its bytes. *)
Fixpoint bytes (t : DataType) : Z :=
  match t with
  | SimpleType bits n _ => Z.abs (bits * n) / 8
  | PointerType _ _ => 4
  | ArrayType e n => bytes e * Z.abs n
  | StructType es => 0
  | ImageType => 0
  end.

#[local] Instance periphery : Periphery := {|
  getElementType := λ t,
    match t with PointerType e _ => e | ArrayType e _ => e | _ => t end;
  getPhysicalWidth := bytes;
  getVPMStorageType := λ t, t;
  NUM_QPUS := 12;
  VPM_DEFAULT_SIZE := 4096
|}.

(** [%x = add %p, 4] where [%p = mul24 %a, %b]: local 0 is [%x], local 1 is
    [%p], both plain pointer-typed locals. *)
Definition pointerPlusOffset : Store := λ id,
  match id with
  | 0%nat =>
      plain KLocal (intPointer AS_GLOBAL) 0
        [(UOperation (mkOperation OP_ADD (localValue 1 (intPointer AS_GLOBAL)) (Some (literal 4))),
          writer)]
  | 1%nat =>
      plain KLocal (intPointer AS_GLOBAL) 1
        [(UOperation (mkOperation OP_MUL24 (localValue 2 TYPE_INT32)
                        (Some (localValue 3 TYPE_INT32))), writer);
         (UOperation (mkOperation OP_ADD (localValue 1 (intPointer AS_GLOBAL)) (Some (literal 4))),
          reader)]
  | _ => plain KLocal TYPE_INT32 id []
  end.

(** [%v = load memory at %in] where [%in] is a parameter: local 0 is [%v],
    local 1 is [%in]. *)
Definition loadInstruction : MemoryInstruction :=
  mkMemoryInstruction READ (localValue 0 (intPointer AS_GLOBAL))
    (localValue 1 (PointerType (intPointer AS_GLOBAL) AS_GLOBAL)) INT_ONE.

Definition loadedPointer : Store := λ id,
  match id with
  | 0%nat => plain KLocal (intPointer AS_GLOBAL) 0 [(UMemory loadInstruction, writer)]
  | 1%nat =>
      plain KParameter (PointerType (intPointer AS_GLOBAL) AS_GLOBAL) 1
        [(UMemory loadInstruction, reader)]
  | _ => plain KLocal TYPE_INT32 id []
  end.

(** A store in which no local has any user. *)
Definition unusedLocals : Store := λ id, plain KLocal TYPE_INT32 id [].

(** A constant global [int[16]] (local 0) and a stack allocation of
    [int[256]] (local 1), each addressed directly. *)
Definition globalsAndStack : Store := λ id,
  match id with
  | 0%nat => plain (KGlobal true) (PointerType (ArrayType TYPE_INT32 16) AS_CONSTANT) 0 []
  | 1%nat => plain KStackAllocation (PointerType (ArrayType TYPE_INT32 256) AS_PRIVATE) 1 []
  | _ => plain KLocal TYPE_INT32 id []
  end.

End fragments.

(** ** Concrete loops *)

Module loopFragments.
Import analysis.

(** A loop entered from the start block: [0 -> 1 -> 2 -> 1], leaving by
    [2 -> 3]; the back edge is [2 -> 1]. *)
Definition enteredGraph : ControlFlowGraph :=
  mkCFG 0 [(0, 1); (1, 2); (2, 1); (2, 3)]%nat.

Definition enteredLoop : ControlFlowLoop :=
  mkLoop {[1; 2]}%nat (Some (2, 1)%nat).

(** A loop that begins with the start block itself: [0 -> 1 -> 0], leaving by
    [1 -> 2]; the back edge is [1 -> 0]. *)
Definition startGraph : ControlFlowGraph :=
  mkCFG 0 [(0, 1); (1, 0); (1, 2)]%nat.

Definition startLoop : ControlFlowLoop :=
  mkLoop {[0; 1]}%nat (Some (1, 0)%nat).

(** [for(i = 0; i < 10; ++i)] on local 7, the condition checked before the
    step. *)
Definition countToTen : InductionVariable :=
  mkInductionVariable 7
    (UMove (fragments.literal 0))
    (mkOperation OP_ADD (fragments.localValue 7 TYPE_INT32) (Some (fragments.literal 1)))
    (Some (COMP_LT, fragments.literal 10))
    true.

(** Four loops over the blocks 1 to 6: A holds all of them, B is [2 3 4], C
    is [3 4], D is [5 6]. *)
Definition loopA : ControlFlowLoop := mkLoop {[1; 2; 3; 4; 5; 6]}%nat (Some (6, 1)%nat).
Definition loopB : ControlFlowLoop := mkLoop {[2; 3; 4]}%nat (Some (4, 2)%nat).
Definition loopC : ControlFlowLoop := mkLoop {[3; 4]}%nat (Some (4, 3)%nat).
Definition loopD : ControlFlowLoop := mkLoop {[5; 6]}%nat (Some (6, 5)%nat).

End loopFragments.

(** ** Further members of [MemoryInstruction] *)

(** [MemoryInstruction::copyFor]: a new instruction of the same operation over
    the renamed operands, built by the constructor.  [renameValue] is declared
    outside these sources and is an argument; the extras that
    [copyExtrasFrom] carries over are no part of the operands. *)
Definition copyFor (renameValue : Value → Value) (mi : MemoryInstruction)
  : outcome MemoryInstruction :=
  newMemoryInstruction (op mi) (renameValue (getDestination mi))
    (renameValue (getSource mi)) (renameValue (getNumEntries mi)).

(** What the lambda of [isDerivedFromMemory] lets pass, said as a property of
    the writer: a move from a local that is itself derived from memory, a
    memory instruction, or an addition or subtraction of a pointer-typed local
    and an operand that is no pointer. *)
Definition acceptedWriter (derived : LocalId → Prop) (user : LocalUser) : Prop :=
  match user with
  | UMove source => ∃ l, checkLocal source = Some l ∧ derived l
  | UMemory _ => True
  | UOperation o =>
      (opcode o = OP_ADD ∨ opcode o = OP_SUB) ∧
      ∃ second, getSecondArg o = Some second ∧
        ((is_Some (checkLocal (getFirstArg o)) ∧ hasPointerType (getFirstArg o) = true
          ∧ hasPointerType second = false)
         ∨ (is_Some (checkLocal second) ∧ hasPointerType (getFirstArg o) = false
            ∧ hasPointerType second = true))
  | UOther => False
  end.

(** The writers of a local that are moves of another local. *)
Definition movedFrom (st : Store) (l source : LocalId) : Prop :=
  ∃ val use, (UMove val, use) ∈ getUsers (st l) ∧ writesLocal use = true
             ∧ checkLocal val = Some source.

(** A global whose pointer type is in the local address space: the test of
    [isGlobalWithLocalAddressSpace] on a global that has a pointer type. *)
Definition inLocalAddressSpace (l : Local) : bool :=
  isGlobal l
  && match getPointerType (type l) with
     | Some (_, addressSpace) => bool_decide (addressSpace = AS_LOCAL)
     | None => false
     end.

Module moveFragments.
Import fragments.

(** [%v = load memory at %scratch] where [%scratch] (local 1) is a global in
    the local address space that is not constant. *)
Definition loadScratch : MemoryInstruction :=
  mkMemoryInstruction READ (localValue 0 TYPE_INT32) (localValue 1 (intPointer AS_LOCAL)) INT_ONE.

Definition localScratch : Store := λ id,
  match id with
  | 0%nat => plain KLocal TYPE_INT32 0 [(UMemory loadScratch, writer)]
  | 1%nat => plain (KGlobal false) (intPointer AS_LOCAL) 1 [(UMemory loadScratch, reader)]
  | _ => plain KLocal TYPE_INT32 id []
  end.

(** [%b = mov %a; %c = mov %b] where [%a] is a parameter: local 0 is [%a],
    local 1 is [%b], local 2 is [%c]. *)
Definition movedParameter : Store := λ id,
  match id with
  | 0%nat => plain KParameter (intPointer AS_GLOBAL) 0 []
  | 1%nat => plain KLocal (intPointer AS_GLOBAL) 1
               [(UMove (localValue 0 (intPointer AS_GLOBAL)), writer)]
  | 2%nat => plain KLocal (intPointer AS_GLOBAL) 2
               [(UMove (localValue 1 (intPointer AS_GLOBAL)), writer)]
  | _ => plain KLocal TYPE_INT32 id []
  end.

Definition movedParameterRank (id : LocalId) : nat := id.

(** [%x = mov %x]: local 0 is written by a move of itself. *)
Definition selfMove : Store := λ id,
  match id with
  | 0%nat => plain KLocal (intPointer AS_GLOBAL) 0
               [(UMove (localValue 0 (intPointer AS_GLOBAL)), mkUse 1 1)]
  | _ => plain KLocal TYPE_INT32 id []
  end.

(** [copy %n entries from %in into %out] with two parameters (locals 1 and 2)
    and a count held in local 3; [fill %out with 4 copies of 0]. *)
Definition dynamicCopy : MemoryInstruction :=
  mkMemoryInstruction COPY (localValue 2 (intPointer AS_GLOBAL))
    (localValue 1 (intPointer AS_GLOBAL)) (localValue 3 TYPE_INT32).

Definition fillFour : MemoryInstruction :=
  mkMemoryInstruction FILL (localValue 2 (intPointer AS_GLOBAL)) (literal 0) (literal 4).

(** [store %v into %buffer] where [%buffer] (local 1) is a stack allocation of
    sixteen [int] and [%v] is local 0. *)
Definition storeToStack : MemoryInstruction :=
  mkMemoryInstruction WRITE (localValue 1 (PointerType (ArrayType TYPE_INT32 16) AS_PRIVATE))
    (localValue 0 TYPE_INT32) INT_ONE.

Definition parametersAndStack : Store := λ id,
  match id with
  | 0%nat => plain KLocal TYPE_INT32 0 [(UMemory storeToStack, reader)]
  | 1%nat => plain KStackAllocation (PointerType (ArrayType TYPE_INT32 16) AS_PRIVATE) 1
               [(UMemory storeToStack, writer)]
  | 2%nat => plain KParameter (intPointer AS_GLOBAL) 2 []
  | _ => plain KLocal TYPE_INT32 id []
  end.

Definition twoParameters : Store := λ id,
  match id with
  | 1%nat => plain KParameter (intPointer AS_GLOBAL) 1 []
  | 2%nat => plain KParameter (intPointer AS_GLOBAL) 2 []
  | _ => plain KLocal TYPE_INT32 id []
  end.

(** A renaming that moves every local ten handles up and leaves every other
    value alone. *)
Definition tenUp (val : Value) : Value :=
  match vdata val with
  | VLocal l => mkValue (VLocal (l + 10)) (vtype val)
  | _ => val
  end.

End moveFragments.

(** ** Sources and results of the precompilation steps ([FrontendCompiler.h]) *)

Module precompilation.

(** What [PrecompilationResult] and [PrecompilationSource] use of the data
    they hold: [TypedCompilationData<Type>] and its streams are declared in
    [CompilationData.h], outside these sources, and are an interface.
    [isFileCompilationData] is the [dynamic_cast] to
    [FileCompilationData<Type>]; a stream pointer may be null. *)
Class CompilationDataOps := {
  TypedCompilationData : Type;
  InputStream : Type;
  OutputStream : Type;
  dataFilePath : TypedCompilationData → option string;
  isFileCompilationData : TypedCompilationData → bool;
  readStream : TypedCompilationData → option InputStream;
  writeStream : TypedCompilationData → option OutputStream;
  dataToString : TypedCompilationData → string
}.

(** A constructor either builds its object or throws a [CompilationError] of
    the step [PRECOMPILATION] with a message. *)
Inductive built (A : Type) : Type :=
| Built (a : A)
| PrecompilationError (message : string).
Arguments Built {A} a.
Arguments PrecompilationError {A} message.

Section Steps.
Context {ops : CompilationDataOps}.

(** [PrecompilationResult<Type>]: a [unique_ptr] to the data, null in an empty
    result. *)
Record PrecompilationResult := mkResult {
  resultData : option TypedCompilationData
}.

Definition emptyResult : PrecompilationResult := mkResult None.

Definition newResult (data : option TypedCompilationData) : built PrecompilationResult :=
  match data with
  | None => PrecompilationError "Result has no data!"
  | Some _ => Built (mkResult data)
  end.

Definition getResultFilePath (r : PrecompilationResult) : option string :=
  match resultData r with
  | Some data => dataFilePath data
  | None => None
  end.

Definition getOutputPath (r : PrecompilationResult) (defaultPath : string) : string :=
  default defaultPath (getResultFilePath r).

(** The cast of a null pointer is null, so an empty result skips the first
    [return]. *)
Definition getBufferWriter (force : bool) (r : PrecompilationResult) : option OutputStream :=
  if negb force
     && match resultData r with Some data => isFileCompilationData data | None => false end
  then None
  else match resultData r with
       | Some data => writeStream data
       | None => None
       end.

(** [release] hands the data out and leaves the result empty. *)
Definition release (r : PrecompilationResult)
  : option TypedCompilationData * PrecompilationResult :=
  (resultData r, mkResult None).

Definition resultToString (r : PrecompilationResult) : string :=
  match resultData r with
  | Some data => dataToString data
  | None => "(empty)"
  end.

Definition resultHasData (r : PrecompilationResult) : bool :=
  bool_decide (is_Some (resultData r)).

(** [PrecompilationSource<Type>]: a [shared_ptr] to the data; every constructor
    throws on a null pointer, so a source that exists holds data. *)
Record PrecompilationSource := mkSource {
  sourceData : TypedCompilationData
}.

Definition newSource (data : option TypedCompilationData) : built PrecompilationSource :=
  match data with
  | None => PrecompilationError "Source has no data!"
  | Some data => Built (mkSource data)
  end.

(** [PrecompilationSource(PrecompilationResult&& res)]: the data is moved out
    of the result, which is left empty, and handed to the constructor above. *)
Definition sourceOfResult (res : PrecompilationResult)
  : built PrecompilationSource * PrecompilationResult :=
  (newSource (resultData res), mkResult None).

Definition getSourceFilePath (s : PrecompilationSource) : option string :=
  dataFilePath (sourceData s).

Definition getInputPath (s : PrecompilationSource) (defaultPath : string) : string :=
  default defaultPath (getSourceFilePath s).

Definition getBufferReader (force : bool) (s : PrecompilationSource) : option InputStream :=
  if negb force && isFileCompilationData (sourceData s) then None
  else readStream (sourceData s).

Definition sourceToString (s : PrecompilationSource) : string :=
  dataToString (sourceData s).

End Steps.

(** Data that is a file with its path or a buffer of bytes held in memory. *)
Inductive sampleData := InFile (path : string) | InMemory (bytes : list Z).

Definition sampleOps : CompilationDataOps := {|
  TypedCompilationData := sampleData;
  InputStream := list Z;
  OutputStream := list Z;
  dataFilePath := λ data, match data with InFile path => Some path | InMemory _ => None end;
  isFileCompilationData := λ data, match data with InFile _ => true | InMemory _ => false end;
  readStream := λ data, match data with InFile _ => Some [] | InMemory bytes => Some bytes end;
  writeStream := λ data, Some [];
  dataToString := λ data, match data with InFile path => path | InMemory _ => "(buffer)"%string end
|}.

End precompilation.

(** ** Operands of live instructions, and origins *)

(** An instruction is among the users of the locals of its operands:
    [IntermediateInstruction] enters itself there when an operand is set, and
    [canMoveSourceIntoVPM] and [canMoveDestinationIntoVPM] hand the operands
    of the instruction they are called on to [canMoveIntoVPM]. *)
Definition registered (st : Store) (mi : MemoryInstruction) : Prop :=
  ∀ val l, val = getSource mi ∨ val = getDestination mi →
           checkLocal val = Some l →
           ∃ use, (UMemory mi, use) ∈ getUsers (st l).

(** The local whose pointer a writer passes on: the source of a move, the
    pointer-typed local of an addition or subtraction. *)
Definition pointerSourceOf (user : LocalUser) : option LocalId :=
  match user with
  | UMove source => checkLocal source
  | UOperation o =>
      if bool_decide (opcode o = OP_ADD ∨ opcode o = OP_SUB)
      then if hasPointerType (getFirstArg o) then checkLocal (getFirstArg o)
           else getSecondArg o ≫= checkLocal
      else None
  | _ => None
  end.

(** A local traces to a recognized origin when its base is a global, a stack
    allocation or a parameter, or when a writer passes on the pointer of a
    local that traces to one. *)
Inductive tracesToOrigin (st : Store) : LocalId → Prop :=
| traces_base l :
    kind (st (getBase (st l))) ≠ KLocal → tracesToOrigin st l
| traces_writer l user use source :
    (user, use) ∈ getUsers (st l) → writesLocal use = true →
    pointerSourceOf user = Some source → tracesToOrigin st source →
    tracesToOrigin st l.

Module storageFragments.
Import fragments.

(** A periphery that keeps every scalar in a vector of sixteen lanes, with
    twelve QPUs and a scratchpad of 4096 units. *)
Fixpoint inLanes (t : DataType) : DataType :=
  match t with
  | SimpleType bits _ float => SimpleType bits 16 float
  | ArrayType e n => ArrayType (inLanes e) n
  | _ => t
  end.

Definition lanesPeriphery : Periphery := {|
  getElementType := λ t,
    match t with PointerType e _ => e | ArrayType e _ => e | _ => t end;
  getPhysicalWidth := bytes;
  getVPMStorageType := inLanes;
  NUM_QPUS := 12;
  VPM_DEFAULT_SIZE := 4096
|}.

(** A stack allocation of [int[64]] (local 0), addressed directly. *)
Definition stackOfInts : Store := λ id,
  match id with
  | 0%nat => plain KStackAllocation (PointerType (ArrayType TYPE_INT32 64) AS_PRIVATE) 0 []
  | _ => plain KLocal TYPE_INT32 id []
  end.

(** [%p = load memory at %in; %v = load memory at %p]: [%in] (local 1) is a
    parameter that points to pointers, [%p] (local 0) is the pointer read from
    memory, [%v] is local 2; each instruction is a user of its operands. *)
Definition loadPointer : MemoryInstruction :=
  mkMemoryInstruction READ (localValue 0 (intPointer AS_GLOBAL))
    (localValue 1 (PointerType (intPointer AS_GLOBAL) AS_GLOBAL)) INT_ONE.

Definition loadThrough : MemoryInstruction :=
  mkMemoryInstruction READ (localValue 2 TYPE_INT32) (localValue 0 (intPointer AS_GLOBAL)) INT_ONE.

Definition twoLoads : Store := λ id,
  match id with
  | 0%nat => plain KLocal (intPointer AS_GLOBAL) 0
               [(UMemory loadPointer, writer); (UMemory loadThrough, reader)]
  | 1%nat => plain KParameter (PointerType (intPointer AS_GLOBAL) AS_GLOBAL) 1
               [(UMemory loadPointer, reader)]
  | 2%nat => plain KLocal TYPE_INT32 2 [(UMemory loadThrough, writer)]
  | _ => plain KLocal TYPE_INT32 id []
  end.

(** [%v = load memory at %x] where [%x] (local 0) is written by a move of
    itself. *)
Definition loadFromCycle : MemoryInstruction :=
  mkMemoryInstruction READ (localValue 1 TYPE_INT32) (localValue 0 (intPointer AS_GLOBAL)) INT_ONE.

Definition cycle : Store := λ id,
  match id with
  | 0%nat => plain KLocal (intPointer AS_GLOBAL) 0
               [(UMove (localValue 0 (intPointer AS_GLOBAL)), mkUse 1 1);
                (UMemory loadFromCycle, reader)]
  | 1%nat => plain KLocal TYPE_INT32 1 [(UMemory loadFromCycle, writer)]
  | _ => plain KLocal TYPE_INT32 id []
  end.

End storageFragments.

(** * Properties of the memory-operand classification *)

Section MemoryFacts.

Lemma checkMemoryLocation_Done (fuel : nat) (st : Store) (val : Value) :
  checkMemoryLocation fuel st val = Done () ↔ isMemoryLocation fuel st val.
Proof.
  unfold checkMemoryLocation, isMemoryLocation.
  destruct (hasPointerType val); simpl.
  2: { split; [done | by intros [? _]]. }
  destruct (checkLocal val) as [l|].
  2: { split; [done | by intros [_ (? & ? & _)]]. }
  split.
  - destruct (isDerivedFromMemory fuel st l) as [[]| |] eqn:E; simpl; try done.
    intros _. split; [done | exists l; split; [reflexivity | exact E]].
  - intros [_ (l' & [= <-] & ->)]. done.
Qed.

Lemma checkMemoryLocation_outcome (fuel : nat) (st : Store) (val : Value) :
  checkMemoryLocation fuel st val = Done ()
  ∨ throws (checkMemoryLocation fuel st val)
  ∨ checkMemoryLocation fuel st val = OutOfFuel.
Proof.
  destruct (checkMemoryLocation fuel st val) as [[]| |]; unfold throws; eauto.
Qed.

Lemma local_of_checkLocal (val : Value) (l : LocalId) :
  checkLocal val = Some l → local val = Done l.
Proof. unfold local. by intros ->. Qed.

End MemoryFacts.

Section AddressTable.
Context {hw : Periphery}.

Lemma canMoveIntoVPM_address (fuel : nat) (st : Store) (val : Value) (l : LocalId) :
  checkMemoryLocation fuel st val = Done () →
  checkLocal val = Some l →
  canMoveIntoVPM fuel st val true = Done (canMoveAddressIntoVPM (st (getBase (st l)))).
Proof.
  intros Hcheck Hl. unfold canMoveIntoVPM. rewrite Hcheck. simpl.
  by rewrite (local_of_checkLocal _ _ Hl).
Qed.

Lemma stack_product_no_wrap (width : Z) :
  0 ≤ NUM_QPUS → VPM_DEFAULT_SIZE * NUM_QPUS < 2 ^ 32 →
  0 ≤ width ≤ VPM_DEFAULT_SIZE →
  (width * NUM_QPUS) mod UINT_MAX_PLUS_ONE = width * NUM_QPUS.
Proof.
  intros Hq Hfit Hw. apply Z.mod_small. unfold UINT_MAX_PLUS_ONE. nia.
Qed.

(** C1: for an address operand that passes the memory-location validation,
    [canMoveIntoVPM] returns the eligibility of the origin table, where the
    width is the physical width of the type in which the VPM stores the
    element, [getVPMStorageType (elementType)], not of the element type
    itself.  An origin whose element type is a struct or an array of
    structs, or whose storage type is wider than the scratchpad, is not
    eligible whatever its kind.  Otherwise a constant global is eligible, a
    non-constant global is eligible exactly when its pointer type is in the
    local address space, a parameter is not eligible, a stack allocation is
    eligible exactly when the width of its storage type times [NUM_QPUS] is
    strictly below the capacity, and a plain local is not eligible. *)
Theorem canMoveIntoVPM_origin_table (fuel : nat) (st : Store) (val : Value) :
  0 ≤ NUM_QPUS →
  VPM_DEFAULT_SIZE * NUM_QPUS < 2 ^ 32 →
  (∀ t, 0 ≤ getPhysicalWidth t) →
  checkMemoryLocation fuel st val = Done () →
  ∃ l eligible,
    checkLocal val = Some l ∧
    canMoveIntoVPM fuel st val true = Done eligible ∧
    let base := st (getBase (st l)) in
    let elementType := getElementType (type base) in
    let width := getPhysicalWidth (getVPMStorageType elementType) in
    ((is_Some (getStructType elementType)
      ∨ (∃ inner n, getArrayType elementType = Some (inner, n) ∧ is_Some (getStructType inner))
      ∨ VPM_DEFAULT_SIZE < width) → eligible = false) ∧
    (getStructType elementType = None →
     (∀ inner n, getArrayType elementType = Some (inner, n) → getStructType inner = None) →
     width ≤ VPM_DEFAULT_SIZE →
     match kind base with
     | KGlobal true => eligible = true
     | KGlobal false =>
         eligible = true ↔ ∃ pointee, getPointerType (type base) = Some (pointee, AS_LOCAL)
     | KParameter => eligible = false
     | KStackAllocation => eligible = true ↔ width * NUM_QPUS < VPM_DEFAULT_SIZE
     | KLocal => eligible = false
     end).
Proof.
  intros Hq Hfit Hpos Hcheck.
  destruct (proj1 (checkMemoryLocation_Done _ _ _) Hcheck) as [_ (l & Hl & _)].
  exists l, (canMoveAddressIntoVPM (st (getBase (st l)))).
  split; [done|]. split; [by apply canMoveIntoVPM_address|].
  set (base := st (getBase (st l))). simpl.
  unfold canMoveAddressIntoVPM, isStructOrArrayOfStructs. fold base.
  set (elementType := getElementType (type base)).
  set (width := getPhysicalWidth (getVPMStorageType elementType)).
  split.
  - intros [Hs | [(inner & n & Ha & Hs) | Hw]].
    + by rewrite (bool_decide_eq_true_2 _ Hs).
    + rewrite Ha, (bool_decide_eq_true_2 _ Hs). by rewrite orb_true_r.
    + destruct (_ || _); [done|].
      by rewrite (proj2 (Z.ltb_lt _ _) Hw).
  - intros Hs Ha Hw.
    rewrite Hs. rewrite bool_decide_eq_false_2 by (by intros [? ?]). simpl.
    assert (match getArrayType elementType with
            | Some (inner, _) => bool_decide (is_Some (getStructType inner))
            | None => false
            end = false) as ->.
    { destruct (getArrayType elementType) as [[inner n]|] eqn:E; [|done].
      rewrite (Ha inner n eq_refl). apply bool_decide_eq_false_2. by intros [? ?]. }
    rewrite (proj2 (Z.ltb_ge _ _) Hw).
    unfold asGlobal, isParameter, isStackAllocation.
    destruct (kind base) as [| |[]|]; simpl; try done.
    + destruct (getPointerType (type base)) as [[pointee a]|].
      * rewrite bool_decide_eq_true. split; [intros ->; eauto | by intros (? & [= _ ->])].
      * split; [done | by intros (? & ?)].
    + rewrite stack_product_no_wrap;
        [apply Z.ltb_lt | done | done | split; [apply Hpos | done]].
Qed.

End AddressTable.

(** The table at the constant global of [fragments.globalsAndStack]: it is
    eligible. *)
Lemma canMoveIntoVPM_origin_table_witness :
  ∃ l eligible,
    checkLocal (fragments.localValue 0 (PointerType (ArrayType TYPE_INT32 16) AS_CONSTANT)) = Some l ∧
    canMoveIntoVPM (hw := fragments.periphery) 1 fragments.globalsAndStack
      (fragments.localValue 0 (PointerType (ArrayType TYPE_INT32 16) AS_CONSTANT)) true
    = Done eligible ∧ eligible = true.
Proof.
  destruct (canMoveIntoVPM_origin_table (hw := fragments.periphery) 1 fragments.globalsAndStack
              (fragments.localValue 0 (PointerType (ArrayType TYPE_INT32 16) AS_CONSTANT)))
    as (l & eligible & Hl & Hrun & _ & Htable).
  - simpl. lia.
  - simpl. lia.
  - intros t. simpl. induction t; simpl; try lia.
    apply Z.div_pos; lia.
  - reflexivity.
  - exists l, eligible. split; [exact Hl|]. split; [exact Hrun|].
    injection Hl as <-. apply Htable.
    + reflexivity.
    + intros inner n [= <- <-]. reflexivity.
    + vm_compute. discriminate.
Defined.

(** With sixteen-lane storage a stack allocation of [int[64]] has an element
    of 256 bytes, and 256 times the twelve QPUs is below the capacity of 4096;
    its storage type takes 4096, twelve of which do not fit: the operand is
    not eligible. *)
Lemma canMoveIntoVPM_storage_width :
  let hw := storageFragments.lanesPeriphery in
  let val := fragments.localValue 0 (PointerType (ArrayType TYPE_INT32 64) AS_PRIVATE) in
  let base := storageFragments.stackOfInts (getBase (storageFragments.stackOfInts 0%nat)) in
  let elementType := getElementType (type base) in
  checkMemoryLocation 1 storageFragments.stackOfInts val = Done () ∧
  kind base = KStackAllocation ∧
  getStructType elementType = None ∧
  getArrayType elementType = Some (TYPE_INT32, 64) ∧
  getPhysicalWidth elementType = 256 ∧
  getPhysicalWidth elementType * NUM_QPUS < VPM_DEFAULT_SIZE ∧
  getPhysicalWidth (getVPMStorageType elementType) = 4096 ∧
  canMoveIntoVPM 1 storageFragments.stackOfInts val true = Done false.
Proof. repeat split. Qed.

(** The stack allocation of [fragments.globalsAndStack] holds 1024 bytes for
    each of the twelve QPUs, which the scratchpad of 4096 cannot take. *)
Example canMoveIntoVPM_large_stack :
  canMoveIntoVPM (hw := fragments.periphery) 1 fragments.globalsAndStack
    (fragments.localValue 1 (PointerType (ArrayType TYPE_INT32 256) AS_PRIVATE)) true
  = Done false.
Proof. reflexivity. Qed.

(** ** [isDerivedFromMemory] *)

Section DerivedFromMemory.
Implicit Types (st : Store) (l : LocalId) (fuel : nat).

Lemma isDerivedFromMemory_unfold fuel st l :
  isDerivedFromMemory (S fuel) st l =
  if residesInMemory (st (getBase (st l))) || isParameter (st (getBase (st l))) then Done true
  else forWriters (writerConsumer (isDerivedFromMemory fuel st)) (getUsers (st l)) true.
Proof. reflexivity. Qed.

(** A local whose base is a global, a stack allocation or a parameter is
    derived from memory, whatever writes it. *)
Lemma isDerivedFromMemory_origin fuel st l :
  kind (st (getBase (st l))) ≠ KLocal →
  isDerivedFromMemory (S fuel) st l = Done true.
Proof.
  intros Hkind. rewrite isDerivedFromMemory_unfold.
  unfold residesInMemory, isGlobal, isStackAllocation, isParameter.
  by destruct (kind (st (getBase (st l)))).
Qed.

(** The sum or difference of two pointer-typed operands clears the
    classification. *)
Lemma writerConsumer_two_pointers (recurse : LocalId → outcome bool) (o : Operation)
    (second : Value) :
  getSecondArg o = Some second →
  hasPointerType (getFirstArg o) = true → hasPointerType second = true →
  writerConsumer recurse (UOperation o) = Done false.
Proof.
  intros Hsecond Hfirst Hptr. unfold writerConsumer, assertArgument1.
  rewrite Hsecond, Hfirst.
  destruct (bool_decide (opcode o ≠ OP_ADD) && bool_decide (opcode o ≠ OP_SUB)); [done|].
  destruct (bool_decide (is_Some (checkLocal (getFirstArg o)))); simpl;
    rewrite ?Hptr; simpl; by rewrite ?andb_false_r.
Qed.

(** A local of a plain base that is defined as the sum of two pointer-typed
    locals is not derived from memory. *)
Lemma isDerivedFromMemory_pointer_sum fuel st l (o : Operation) (second : Value) (use : LocalUse) :
  kind (st (getBase (st l))) = KLocal →
  getUsers (st l) = [(UOperation o, use)] → writesLocal use = true →
  getSecondArg o = Some second →
  hasPointerType (getFirstArg o) = true → hasPointerType second = true →
  isDerivedFromMemory (S fuel) st l = Done false.
Proof.
  intros Hkind Husers Hw Hsecond Hfirst Hptr. rewrite isDerivedFromMemory_unfold.
  unfold residesInMemory, isGlobal, isStackAllocation, isParameter. rewrite Hkind, Husers.
  cbn [forWriters orb]. rewrite Hw.
  by rewrite (writerConsumer_two_pointers (isDerivedFromMemory fuel st) _ _ Hsecond Hfirst Hptr).
Qed.

(** A pointer-typed local plus an offset that is no pointer: the consumer
    returns at once and leaves the classification alone; the pointer operand
    is not visited. *)
Lemma writerConsumer_pointer_offset (recurse : LocalId → outcome bool) (o : Operation)
    (p : LocalId) (offset : Value) :
  opcode o = OP_ADD ∨ opcode o = OP_SUB →
  checkLocal (getFirstArg o) = Some p → hasPointerType (getFirstArg o) = true →
  getSecondArg o = Some offset → hasPointerType offset = false →
  writerConsumer recurse (UOperation o) = Done true.
Proof.
  intros Hop Hp Hptr Hsecond Hoffset. unfold writerConsumer, assertArgument1.
  rewrite Hsecond, Hp, Hptr.
  assert (bool_decide (opcode o ≠ OP_ADD) && bool_decide (opcode o ≠ OP_SUB) = false) as ->.
  { destruct Hop as [-> | ->]; reflexivity. }
  simpl. by rewrite Hoffset.
Qed.

(** C2: in [fragments.pointerPlusOffset] the local [%x = add %p, 4] is
    classified as derived from memory although its pointer operand [%p], the
    result of a multiplication, is classified as not derived from memory: the
    classification of a pointer plus an offset does not follow the pointer
    operand. *)
Theorem isDerivedFromMemory_offset_ignores_pointer (fuel : nat) :
  getUsers (fragments.pointerPlusOffset 0)
  = [(UOperation (mkOperation OP_ADD (fragments.localValue 1 (fragments.intPointer AS_GLOBAL))
                    (Some (fragments.literal 4))), fragments.writer)] ∧
  hasPointerType (fragments.localValue 1 (fragments.intPointer AS_GLOBAL)) = true ∧
  hasPointerType (fragments.literal 4) = false ∧
  kind (fragments.pointerPlusOffset (getBase (fragments.pointerPlusOffset 0))) = KLocal ∧
  isDerivedFromMemory (S fuel) fragments.pointerPlusOffset 1 = Done false ∧
  isDerivedFromMemory (S fuel) fragments.pointerPlusOffset 0 = Done true.
Proof. repeat split. Qed.

(** The consumer answers [Done true] for a memory instruction. *)
Lemma forWriters_memory_only (consumer : LocalUser → outcome bool)
    (users : list (LocalUser * LocalUse)) (acc : bool) :
  (∀ mi, consumer (UMemory mi) = Done true) →
  (∀ user use, (user, use) ∈ users → writesLocal use = true → ∃ mi, user = UMemory mi) →
  forWriters consumer users acc = Done acc.
Proof.
  intros Hconsumer. revert acc. induction users as [|[user use] rest IH]; intros acc Hall; [done|].
  simpl. destruct (writesLocal use) eqn:Hw.
  - destruct (Hall user use) as [mi ->]; [left | done |].
    rewrite Hconsumer. simpl. rewrite andb_true_r.
    apply IH. intros u' use' Hin. apply Hall. by right.
  - apply IH. intros u' use' Hin. apply Hall. by right.
Qed.

(** C3: a local all of whose writers are memory instructions (the destination
    of a READ, say) is classified as derived from memory: the consumer skips
    a memory instruction and the classification stays [true]. *)
Theorem isDerivedFromMemory_memory_writers fuel st l :
  (∀ user use, (user, use) ∈ getUsers (st l) → writesLocal use = true → ∃ mi, user = UMemory mi) →
  isDerivedFromMemory (S fuel) st l = Done true.
Proof.
  intros Hall. rewrite isDerivedFromMemory_unfold.
  destruct (_ || _); [done|].
  by apply forWriters_memory_only.
Qed.

End DerivedFromMemory.

Lemma isDerivedFromMemory_memory_writers_witness :
  isDerivedFromMemory 1 fragments.loadedPointer 0 = Done true.
Proof.
  apply (isDerivedFromMemory_memory_writers 0 fragments.loadedPointer 0%nat).
  intros user use Hin _. simpl in Hin.
  apply list_elem_of_singleton in Hin. injection Hin as -> _.
  by exists fragments.loadInstruction.
Defined.

(** The destination of the READ of [fragments.loadedPointer] is a plain local,
    its own base, written by the READ alone, and [isDerivedFromMemory] answers
    [true] for it, not [false]. *)
Lemma isDerivedFromMemory_read_destination :
  kind (fragments.loadedPointer (getBase (fragments.loadedPointer 0%nat))) = KLocal ∧
  getUsers (fragments.loadedPointer 0%nat) = [(UMemory fragments.loadInstruction, fragments.writer)] ∧
  op fragments.loadInstruction = READ ∧
  residesInMemory (fragments.loadedPointer (getBase (fragments.loadedPointer 0%nat))) = false ∧
  isParameter (fragments.loadedPointer (getBase (fragments.loadedPointer 0%nat))) = false ∧
  ∀ fuel, isDerivedFromMemory fuel fragments.loadedPointer 0 ≠ Done false.
Proof.
  repeat split; try reflexivity. intros [|fuel]; discriminate.
Qed.

(** ** The constructor *)

Lemma Value_eqb_INT_ONE (numEntries : Value) :
  Value_eqb numEntries INT_ONE = true ↔ getLiteralValue numEntries = Some (Lit 1).
Proof.
  unfold Value_eqb, getLiteralValue, INT_ONE. rewrite bool_decide_eq_true. simpl.
  destruct (vdata numEntries); split; congruence.
Qed.

(** C4: a READ or a WRITE whose entry count is not the literal 1 is refused
    with a compilation error, a WRITE of two entries among them; a COPY or a
    FILL is built with any entry count, literal or not. *)
Theorem newMemoryInstruction_entry_count (dest src numEntries : Value) :
  (∀ o, o = READ ∨ o = WRITE →
        getLiteralValue numEntries ≠ Some (Lit 1) →
        throws (newMemoryInstruction o dest src numEntries)) ∧
  throws (newMemoryInstruction WRITE dest src (mkValue (VLiteral (Lit 2)) TYPE_INT32)) ∧
  (∀ o, o = COPY ∨ o = FILL →
        newMemoryInstruction o dest src numEntries
        = Done (mkMemoryInstruction o dest src numEntries)).
Proof.
  split; [|split].
  - intros o Ho Hcount. unfold newMemoryInstruction.
    destruct (Value_eqb numEntries INT_ONE) eqn:E.
    + by apply Value_eqb_INT_ONE in E.
    + simpl. destruct Ho as [-> | ->]; by eexists.
  - by eexists.
  - intros o Ho. unfold newMemoryInstruction.
    destruct (negb (Value_eqb numEntries INT_ONE)); [|done].
    by destruct Ho as [-> | ->].
Qed.

Lemma newMemoryInstruction_entry_count_witness :
  throws (newMemoryInstruction READ (fragments.localValue 0 TYPE_INT32)
            (fragments.localValue 1 (fragments.intPointer AS_GLOBAL))
            (fragments.localValue 2 TYPE_INT32)) ∧
  newMemoryInstruction COPY (fragments.localValue 0 (fragments.intPointer AS_GLOBAL))
    (fragments.localValue 1 (fragments.intPointer AS_GLOBAL)) (fragments.localValue 2 TYPE_INT32)
  = Done (mkMemoryInstruction COPY (fragments.localValue 0 (fragments.intPointer AS_GLOBAL))
            (fragments.localValue 1 (fragments.intPointer AS_GLOBAL))
            (fragments.localValue 2 TYPE_INT32)).
Proof.
  split.
  - apply (proj1 (newMemoryInstruction_entry_count (fragments.localValue 0 TYPE_INT32)
                    (fragments.localValue 1 (fragments.intPointer AS_GLOBAL))
                    (fragments.localValue 2 TYPE_INT32)) READ); [by left | discriminate].
  - apply (proj2 (proj2 (newMemoryInstruction_entry_count
                           (fragments.localValue 0 (fragments.intPointer AS_GLOBAL))
                           (fragments.localValue 1 (fragments.intPointer AS_GLOBAL))
                           (fragments.localValue 2 TYPE_INT32))) COPY). by left.
Defined.

(** C10: every memory instruction, a READ as well, reports side effects and is
    never normalized. *)
Theorem MemoryInstruction_side_effects (o : MemoryOperation) (dest src numEntries : Value) :
  hasSideEffects (mkMemoryInstruction o dest src numEntries) = true ∧
  isNormalized (mkMemoryInstruction o dest src numEntries) = false.
Proof. split; reflexivity. Qed.

(** ** The local-value branch of [canMoveIntoVPM] *)

Section LocalValue.
Context {hw : Periphery}.

Lemma forallb_never {A} (users : list A) :
  forallb (λ _, false) users = bool_decide (users = []).
Proof. by destruct users. Qed.

(** The operands of an instruction that is entered with the locals it uses
    have a user. *)
Lemma registered_operand_used (st : Store) (mi : MemoryInstruction) (val : Value) :
  registered st mi →
  val = getSource mi ∨ val = getDestination mi →
  ∀ l, checkLocal val = Some l → getUsers (st l) ≠ [].
Proof.
  intros Hregistered Hoperand l Hl Hnone.
  destruct (Hregistered val l Hoperand Hl) as [use Hin].
  rewrite Hnone in Hin. by apply elem_of_nil in Hin.
Qed.

Lemma canMoveIntoVPM_used (fuel : nat) (st : Store) (val : Value) :
  (∀ l, checkLocal val = Some l → getUsers (st l) ≠ []) →
  canMoveIntoVPM fuel st val false = Done false.
Proof.
  intros Husers. unfold canMoveIntoVPM.
  destruct (checkLocal val) as [l|]; [|done].
  rewrite forallb_never. by rewrite bool_decide_eq_false_2 by (by apply Husers).
Qed.

(** C5: with [isMemoryAddress = false], [canMoveIntoVPM] answers [false] for
    every value it can be given.  The function is local to the file and is
    only handed operands of the instruction that asks, which is itself a user
    of their locals; the test of the users is constantly [false], so the
    answer is [false] for a value that is no local and for a local with a
    user, whatever the kind of the value and whatever the users are. *)
Theorem canMoveIntoVPM_local_value (fuel : nat) (st : Store) (val : Value) :
  (∀ mi, registered st mi → val = getSource mi ∨ val = getDestination mi →
         canMoveIntoVPM fuel st val false = Done false) ∧
  ((∀ l, checkLocal val = Some l → getUsers (st l) ≠ []) →
   canMoveIntoVPM fuel st val false = Done false).
Proof.
  split; [|apply canMoveIntoVPM_used].
  intros mi Hregistered Hoperand. apply canMoveIntoVPM_used.
  by eapply registered_operand_used.
Qed.

End LocalValue.

Lemma canMoveIntoVPM_local_value_witness :
  registered fragments.loadedPointer fragments.loadInstruction ∧
  canMoveIntoVPM (hw := fragments.periphery) 1 fragments.loadedPointer
    (getDestination fragments.loadInstruction) false = Done false.
Proof.
  assert (registered fragments.loadedPointer fragments.loadInstruction) as Hregistered.
  { intros val l [-> | ->] [= <-].
    - exists fragments.reader. left.
    - exists fragments.writer. left. }
  split; [exact Hregistered|].
  apply (proj1 (canMoveIntoVPM_local_value (hw := fragments.periphery) 1
                  fragments.loadedPointer (getDestination fragments.loadInstruction))
           fragments.loadInstruction Hregistered).
  by right.
Defined.

(** No caller passes a local that nothing uses; [std::all_of] over no user at
    all would hold for it. *)
Lemma canMoveIntoVPM_unused_local :
  getUsers (fragments.unusedLocals 0%nat) = [] ∧
  canMoveIntoVPM (hw := fragments.periphery) 1 fragments.unusedLocals
    (fragments.localValue 0 TYPE_INT32) false = Done true.
Proof. split; reflexivity. Qed.

(** * Properties of the loop queries *)

Section LoopHeader.
Import analysis.
Implicit Types (g : ControlFlowGraph) (l : ControlFlowLoop) (x y z m n : CFGNode).

Lemma walk_first g x z p : walk g x z p → x ∈ p.
Proof. destruct 1; left. Qed.

Lemma walk_last g x z p : walk g x z p → z ∈ p.
Proof. induction 1; [left | by right]. Qed.

Lemma walk_extend g x y z p :
  walk g x y p → (y, z) ∈ edges g → walk g x z (p ++ [z]).
Proof.
  induction 1 as [x | x y' z' p Hedge Hwalk IH]; intros Hstep; simpl.
  - apply walk_edge with z; [done | constructor].
  - apply walk_edge with y'; [done | by apply IH].
Qed.

(** A dominator of a node other than the node itself dominates each of its
    predecessors. *)
Lemma dominates_predecessor g n x y :
  dominates g n x → x ≠ n → (y, x) ∈ edges g → dominates g n y.
Proof.
  intros Hdom Hne Hedge p Hwalk.
  specialize (Hdom (p ++ [x]) (walk_extend _ _ _ _ _ Hwalk Hedge)).
  apply elem_of_app in Hdom as [Hin | Hin]; [done|].
  apply list_elem_of_singleton in Hin. congruence.
Qed.

(** Below its header a natural loop is closed under predecessors. *)
Lemma natural_loop_predecessor g l m n x y :
  isNaturalLoop g l m n →
  x ∈ loopNodes l → x ≠ n → (y, x) ∈ edges g → y ∈ loopNodes l.
Proof.
  intros (_ & _ & _ & Hnodes) Hx Hne Hedge.
  apply Hnodes in Hx as [-> | (Hdom & p & Hwalk & Havoid)]; [done|].
  apply Hnodes. destruct (decide (y = n)) as [-> | Hy]; [by left | right].
  split; [by eapply dominates_predecessor|].
  exists (y :: p). split; [by eapply walk_edge|].
  intros Hin. apply elem_of_cons in Hin as [-> | Hin]; done.
Qed.

Lemma hasPredecessorOutside_spec g l x :
  hasPredecessorOutside g l x = true ↔ enteredAt g l x.
Proof.
  unfold hasPredecessorOutside, enteredAt. rewrite existsb_exists. split.
  - intros ([a b] & Hin & Htest). apply andb_true_iff in Htest as [Hb Ha].
    apply bool_decide_eq_true in Hb, Ha. simpl in *. subst b.
    exists a. split; [by apply list_elem_of_In | done].
  - intros (a & Hin & Hout). exists (a, x). split; [by apply list_elem_of_In|].
    apply andb_true_iff. split; by apply bool_decide_eq_true.
Qed.

(** A duplicate-free list whose members are all [h], and that holds [h]. *)
Lemma NoDup_only (A : Type) (a : A) (items : list A) :
  NoDup items → a ∈ items → (∀ b, b ∈ items → b = a) → items = [a].
Proof.
  intros Hnodup Hin Hall. destruct items as [|b rest]; [by apply elem_of_nil in Hin|].
  assert (b = a) as -> by (apply Hall; left).
  destruct rest as [|b' rest]; [done|].
  assert (b' = a) as -> by (apply Hall; right; left).
  apply NoDup_cons in Hnodup as [Hnotin _]. destruct Hnotin. left.
Qed.

Lemma getHeader_Some g l h :
  getHeader g l = Some h ↔ isOnlyEntry g l h.
Proof.
  unfold getHeader, isOnlyEntry.
  set (candidates := filter (λ x, hasPredecessorOutside g l x = true) (elements (loopNodes l))).
  assert (∀ x, x ∈ candidates ↔ x ∈ loopNodes l ∧ enteredAt g l x) as Hcandidates.
  { intros x. unfold candidates.
    rewrite list_elem_of_filter, elem_of_elements, hasPredecessorOutside_spec. tauto. }
  assert (NoDup candidates) as Hnodup.
  { apply NoDup_filter, NoDup_elements. }
  split.
  - destruct candidates as [|x [|x' rest]] eqn:E; try done.
    intros [= ->]. destruct (proj1 (Hcandidates h)) as [Hin Hentered]; [left|].
    split; [done|]. split; [done|].
    intros x Hx Hentered'.
    assert (x ∈ [h]) as Hmember by (by apply Hcandidates).
    by apply list_elem_of_singleton in Hmember.
  - intros (Hin & Hentered & Honly).
    rewrite (NoDup_only _ h candidates); [done | done | by apply Hcandidates |].
    intros x Hx. apply Hcandidates in Hx as [? ?]. by apply Honly.
Qed.

Lemma getHeader_None g l :
  getHeader g l = None ↔ ¬ ∃ h, isOnlyEntry g l h.
Proof.
  split.
  - intros Hnone (h & Hentry). apply getHeader_Some in Hentry. congruence.
  - intros Hno. destruct (getHeader g l) as [h|] eqn:E; [|done].
    destruct Hno. exists h. by apply getHeader_Some.
Qed.

(** C7: [getHeader] answers the only node of the loop that has a direct
    predecessor outside the loop, and nothing when there is no such single
    node.  For the natural loop of a back edge [m -> n], where [n] dominates
    [m], that is entered from outside at [n], [getHeader] answers [n] and
    [getTail] answers [m]. *)
Theorem getHeader_getTail_natural_loop g l :
  (∀ h, getHeader g l = Some h ↔ isOnlyEntry g l h) ∧
  (getHeader g l = None ↔ ¬ ∃ h, isOnlyEntry g l h) ∧
  (∀ m n, isNaturalLoop g l m n → enteredAt g l n →
          getHeader g l = Some n ∧ getTail l = Some m).
Proof.
  split; [apply getHeader_Some|]. split; [apply getHeader_None|].
  intros m n Hloop Hentered. split.
  - apply getHeader_Some. split; [|split; [done|]].
    + destruct Hloop as (_ & _ & _ & Hnodes). apply Hnodes. by left.
    + intros x Hx (y & Hedge & Hout).
      destruct (decide (x = n)) as [-> | Hne]; [done|].
      destruct Hout. by eapply natural_loop_predecessor.
  - destruct Hloop as (Hback & _). unfold getTail. by rewrite Hback.
Qed.

End LoopHeader.

Section LoopHeaderExamples.
Import analysis loopFragments.

Ltac edge_cases H :=
  simpl in H;
  repeat (apply elem_of_cons in H as [H | H]; [simplify_eq|]);
  try by apply elem_of_nil in H.

Lemma enteredGraph_dominates : dominates enteredGraph 1 2.
Proof.
  intros p Hwalk. inversion Hwalk as [|x y z p' Hedge Hrest]; subst.
  edge_cases Hedge. right. by eapply walk_first.
Qed.

Lemma enteredLoop_natural : isNaturalLoop enteredGraph enteredLoop 2 1.
Proof.
  split; [reflexivity|]. split; [simpl; set_solver|].
  split; [apply enteredGraph_dominates|].
  intros x. simpl. split.
  - intros Hx. apply elem_of_union in Hx as [Hx | Hx]; apply elem_of_singleton in Hx as ->.
    + by left.
    + right. split; [apply enteredGraph_dominates|].
      exists [2%nat]. split; [constructor | set_solver].
  - intros [-> | (Hdom & p & Hwalk & Havoid)]; [set_solver|].
    inversion Hwalk as [|x' y z p' Hedge Hrest]; subst; [set_solver|].
    edge_cases Hedge; try set_solver.
    specialize (Hdom [0%nat] (walk_end _ _)). set_solver.
Qed.

Lemma startGraph_dominates x : dominates startGraph 0 x.
Proof. intros p Hwalk. by eapply walk_first. Qed.

Lemma startLoop_natural : isNaturalLoop startGraph startLoop 1 0.
Proof.
  split; [reflexivity|]. split; [simpl; set_solver|].
  split; [apply startGraph_dominates|].
  intros x. simpl. split.
  - intros Hx. apply elem_of_union in Hx as [Hx | Hx]; apply elem_of_singleton in Hx as ->.
    + by left.
    + right. split; [apply startGraph_dominates|].
      exists [1%nat]. split; [constructor | set_solver].
  - intros [-> | (Hdom & p & Hwalk & Havoid)]; [set_solver|].
    inversion Hwalk as [|x' y z p' Hedge Hrest]; subst; [set_solver|].
    edge_cases Hedge; set_solver.
Qed.

Lemma startGraph_single_back_edge : singleBackEdge startGraph 1 0.
Proof.
  intros a b Hedge Hdom. edge_cases Hedge.
  - specialize (Hdom [0%nat] (walk_end _ _)). set_solver.
  - done.
  - assert (walk startGraph 0 1 [0; 1]%nat) as Hwalk.
    { apply walk_edge with 1%nat; [simpl; set_solver | constructor]. }
    specialize (Hdom _ Hwalk). set_solver.
Qed.

End LoopHeaderExamples.

Lemma getHeader_getTail_natural_loop_witness :
  analysis.getHeader loopFragments.enteredGraph loopFragments.enteredLoop = Some 1%nat ∧
  analysis.getTail loopFragments.enteredLoop = Some 2%nat.
Proof.
  apply (proj2 (proj2 (getHeader_getTail_natural_loop
                         loopFragments.enteredGraph loopFragments.enteredLoop)) 2%nat 1%nat).
  - apply enteredLoop_natural.
  - exists 0%nat. split; [simpl; left | simpl; set_solver].
Defined.

(** The loop of [loopFragments.startGraph] is the natural loop of the only
    back edge [1 -> 0] of that graph, and its header [0], the start block, has
    no predecessor outside the loop: [getHeader] answers nothing. *)
Lemma getHeader_start_block :
  analysis.isNaturalLoop loopFragments.startGraph loopFragments.startLoop 1 0 ∧
  analysis.singleBackEdge loopFragments.startGraph 1 0 ∧
  analysis.getHeader loopFragments.startGraph loopFragments.startLoop = None ∧
  analysis.getHeader loopFragments.startGraph loopFragments.startLoop ≠ Some 0%nat.
Proof.
  split; [apply startLoop_natural|]. split; [apply startGraph_single_back_edge|].
  assert (analysis.getHeader loopFragments.startGraph loopFragments.startLoop = None) as ->.
  { vm_compute. reflexivity. }
  done.
Qed.

(** ** The loop inclusion tree *)

Section InclusionTree.
Import analysis.
Implicit Types (a b c : ControlFlowLoop) (loops : list ControlFlowLoop).

Lemma includes_spec a b : includes a b = true ↔ loopNodes b ⊂ loopNodes a.
Proof. unfold includes. apply bool_decide_eq_true. Qed.

Lemma isInnermostIncluding_spec loops a b :
  isInnermostIncluding loops a b = true ↔ loopNodes b ⊂ loopNodes a ∧ nothingBetween loops a b.
Proof.
  unfold isInnermostIncluding, nothingBetween.
  rewrite andb_true_iff, includes_spec, forallb_forall.
  split; intros [Hincl Hnone]; (split; [done|]).
  - intros c Hc [Hbc Hca]. specialize (Hnone c (proj1 (list_elem_of_In _ _) Hc)).
    apply negb_true_iff, andb_false_iff in Hnone as [Hno | Hno];
      apply not_true_iff_false in Hno; apply Hno; by apply includes_spec.
  - intros c Hc. apply negb_true_iff, not_true_iff_false. intros Hboth.
    apply andb_true_iff in Hboth as [Hac Hcb]. apply includes_spec in Hac, Hcb.
    apply (Hnone c); [by apply list_elem_of_In | done].
Qed.

Lemma treeEdges_spec loops a b :
  (a, b) ∈ treeEdges (createLoopInclusingTree loops) ↔
  a ∈ loops ∧ b ∈ loops ∧ loopNodes b ⊂ loopNodes a ∧ nothingBetween loops a b.
Proof.
  simpl. rewrite list_elem_of_bind. split.
  - intros (b' & Hedge & Hb). apply list_elem_of_bind in Hedge as (a' & Hedge & Ha).
    destruct (isInnermostIncluding loops a' b') eqn:E; [|by apply elem_of_nil in Hedge].
    apply list_elem_of_singleton in Hedge as [= -> ->].
    apply isInnermostIncluding_spec in E as [? ?]. done.
  - intros (Ha & Hb & Hincl & Hnone). exists b. split; [|done].
    apply list_elem_of_bind. exists a. split; [|done].
    rewrite (proj2 (isInnermostIncluding_spec loops a b)) by done. left.
Qed.

Lemma treeRoots_spec loops b :
  b ∈ treeRoots (createLoopInclusingTree loops) ↔
  b ∈ loops ∧ ∀ a, a ∈ loops → ¬ loopNodes b ⊂ loopNodes a.
Proof.
  simpl. rewrite list_elem_of_filter, forallb_forall. split; intros [Hall Hb]; split; try done.
  - intros a Ha Hincl. specialize (Hall a (proj1 (list_elem_of_In _ _) Ha)).
    apply negb_true_iff, not_true_iff_false in Hall. apply Hall. by apply includes_spec.
  - intros a Ha. apply negb_true_iff, not_true_iff_false. intros Hincl.
    apply includes_spec in Hincl. apply (Hb a); [by apply list_elem_of_In | done].
Qed.

(** Among the loops of the list that include [b] there is an innermost one: a
    loop that lies between is smaller, so the descent ends. *)
Lemma forallb_false {A} (f : A → bool) (items : list A) :
  forallb f items = false → ∃ item, item ∈ items ∧ f item = false.
Proof.
  induction items as [|item rest IH]; simpl; [done|].
  destruct (f item) eqn:E; simpl.
  - intros Hrest. destruct (IH Hrest) as (item' & Hin & Hf). exists item'. split; [by right | done].
  - intros _. exists item. split; [left | done].
Qed.

Lemma innermost_exists loops (k : nat) a b :
  (size (loopNodes a) < k)%nat →
  a ∈ loops → loopNodes b ⊂ loopNodes a →
  ∃ a', a' ∈ loops ∧ loopNodes b ⊂ loopNodes a' ∧ nothingBetween loops a' b.
Proof.
  revert a. induction k as [|k IH]; intros a Hsize Ha Hincl; [lia|].
  destruct (isInnermostIncluding loops a b) eqn:E.
  - apply isInnermostIncluding_spec in E as [_ Hnone]. by exists a.
  - unfold isInnermostIncluding in E. rewrite (proj2 (includes_spec a b) Hincl) in E.
    simpl in E. apply forallb_false in E as (c & Hc & Hboth).
    apply negb_false_iff, andb_true_iff in Hboth as [Hac Hcb].
    apply includes_spec in Hac, Hcb.
    apply (IH c); [|done..].
    apply subset_size in Hac. lia.
Qed.

Lemma nodes_chain (X Y Z : gset CFGNode) : X ⊆ Y → Y ⊆ Z → X ⊆ Z.
Proof. set_solver. Qed.

(** Closes a goal whose hypotheses order node sets in a circle. *)
Ltac order_contra :=
  repeat match goal with H : _ ⊂ _ |- _ => destruct H as [? ?] end;
  match goal with
  | H : ¬ (_ ⊆ _) |- _ => destruct H; solve [eauto 3 using nodes_chain]
  end.

(** C8: in the forest of [createLoopInclusingTree] the parents of a loop are
    the loops of the list that include it with no loop of the list strictly
    between, the roots are the loops that no loop of the list includes, and a
    loop that is no root has a parent.  For loops A ⊃ B ⊃ C and a loop D
    inside A that neither includes nor is included in B or C, in whatever
    order the list holds them, the edges are A-B, A-D and B-C and the only
    root is A. *)
Theorem createLoopInclusingTree_innermost loops :
  (∀ a b, (a, b) ∈ treeEdges (createLoopInclusingTree loops) ↔
          a ∈ loops ∧ b ∈ loops ∧ loopNodes b ⊂ loopNodes a ∧ nothingBetween loops a b) ∧
  (∀ b, b ∈ treeRoots (createLoopInclusingTree loops) ↔
        b ∈ loops ∧ ∀ a, a ∈ loops → ¬ loopNodes b ⊂ loopNodes a) ∧
  (∀ b, b ∈ loops →
        b ∈ treeRoots (createLoopInclusingTree loops)
        ∨ ∃ a, (a, b) ∈ treeEdges (createLoopInclusingTree loops)) ∧
  (∀ A B C D,
     loops ≡ₚ [A; B; C; D] →
     loopNodes B ⊂ loopNodes A → loopNodes C ⊂ loopNodes B → loopNodes D ⊂ loopNodes A →
     loopNodes D ⊈ loopNodes B → loopNodes B ⊈ loopNodes D →
     loopNodes D ⊈ loopNodes C → loopNodes C ⊈ loopNodes D →
     (∀ a b, (a, b) ∈ treeEdges (createLoopInclusingTree loops) ↔
             (a = A ∧ b = B) ∨ (a = A ∧ b = D) ∨ (a = B ∧ b = C)) ∧
     (∀ b, b ∈ treeRoots (createLoopInclusingTree loops) ↔ b = A)).
Proof.
  split; [apply treeEdges_spec|]. split; [apply treeRoots_spec|]. split.
  - intros b Hb.
    destruct (forallb (λ a, negb (includes a b)) loops) eqn:E.
    + left. simpl. apply list_elem_of_filter. done.
    + right. apply forallb_false in E as (a & Ha & Hincl).
      apply negb_false_iff, includes_spec in Hincl.
      destruct (innermost_exists loops (S (size (loopNodes a))) a b) as (a' & ? & ? & ?);
        [lia | done | done |].
      exists a'. by apply treeEdges_spec.
  - intros A B C D Hperm HBA HCB HDA HDB HBD HDC HCD.
    assert (∀ x, x ∈ loops ↔ x = A ∨ x = B ∨ x = C ∨ x = D) as Hmem.
    { intros x. rewrite Hperm, !elem_of_cons, elem_of_nil. tauto. }
    split.
    + intros a b. rewrite treeEdges_spec, !Hmem. unfold nothingBetween. split.
      * intros (Ha & Hb & Hincl & Hnone).
        destruct Ha as [-> | [-> | [-> | ->]]], Hb as [-> | [-> | [-> | ->]]];
          first [ tauto
                | exfalso; apply (Hnone B); [apply Hmem; tauto | by split]
                | order_contra ].
      * intros [[-> ->] | [[-> ->] | [-> ->]]];
          (split; [tauto|]); (split; [tauto|]); (split; [done|]);
          intros c Hc [H1 H2]; apply Hmem in Hc;
          destruct Hc as [-> | [-> | [-> | ->]]]; order_contra.
    + intros b. rewrite treeRoots_spec, Hmem. split.
      * intros [Hb Hno]. destruct Hb as [-> | [-> | [-> | ->]]]; [done | exfalso..].
        -- apply (Hno A); [apply Hmem; tauto | done].
        -- apply (Hno B); [apply Hmem; tauto | done].
        -- apply (Hno A); [apply Hmem; tauto | done].
      * intros ->. split; [tauto|]. intros a Ha Hincl. apply Hmem in Ha.
        destruct Ha as [-> | [-> | [-> | ->]]]; order_contra.
Qed.

End InclusionTree.

Lemma createLoopInclusingTree_innermost_witness :
  (∀ a b,
     (a, b) ∈ analysis.treeEdges
                (analysis.createLoopInclusingTree
                   [loopFragments.loopD; loopFragments.loopC;
                    loopFragments.loopB; loopFragments.loopA]) ↔
     (a = loopFragments.loopA ∧ b = loopFragments.loopB)
     ∨ (a = loopFragments.loopA ∧ b = loopFragments.loopD)
     ∨ (a = loopFragments.loopB ∧ b = loopFragments.loopC)) ∧
  (∀ b,
     b ∈ analysis.treeRoots
           (analysis.createLoopInclusingTree
              [loopFragments.loopD; loopFragments.loopC;
               loopFragments.loopB; loopFragments.loopA]) ↔
     b = loopFragments.loopA).
Proof.
  apply (proj2 (proj2 (proj2 (createLoopInclusingTree_innermost
                                [loopFragments.loopD; loopFragments.loopC;
                                 loopFragments.loopB; loopFragments.loopA])))).
  - apply (reverse_Permutation
             [loopFragments.loopA; loopFragments.loopB; loopFragments.loopC; loopFragments.loopD]).
  - apply (bool_decide_unpack _). vm_compute. exact I.
  - apply (bool_decide_unpack _). vm_compute. exact I.
  - apply (bool_decide_unpack _). vm_compute. exact I.
  - apply (bool_decide_unpack _). vm_compute. exact I.
  - apply (bool_decide_unpack _). vm_compute. exact I.
  - apply (bool_decide_unpack _). vm_compute. exact I.
  - apply (bool_decide_unpack _). vm_compute. exact I.
Defined.

(** The forest of the four loops of [loopFragments], computed. *)
Example createLoopInclusingTree_four_loops :
  analysis.createLoopInclusingTree
    [loopFragments.loopA; loopFragments.loopB; loopFragments.loopC; loopFragments.loopD]
  = analysis.mkTree
      [(loopFragments.loopA, loopFragments.loopB);
       (loopFragments.loopB, loopFragments.loopC);
       (loopFragments.loopA, loopFragments.loopD)]
      [loopFragments.loopA].
Proof. vm_compute. reflexivity. Qed.

(** ** Induction variables *)

Section InductionVariables.
Import analysis.

Lemma getStep_increment (iv : InductionVariable) (one : Value) :
  opcode (inductionStep iv) = OP_ADD →
  (checkLocal (getFirstArg (inductionStep iv)) = Some (ivLocal iv)
   ∧ getSecondArg (inductionStep iv) = Some one)
  ∨ (getFirstArg (inductionStep iv) = one
     ∧ getSecondArg (inductionStep iv) ≫= checkLocal = Some (ivLocal iv)) →
  getLiteralValue one = Some (Lit 1) →
  getStep iv = Some (Lit 1).
Proof.
  intros Hadd Hshape Hone. unfold getStep, stepOperand.
  destruct Hshape as [[Hfirst Hsecond] | [Hfirst Hsecond]].
  - rewrite Hfirst, Hsecond. rewrite bool_decide_eq_true_2 by done.
    simpl. rewrite Hone. simpl. by rewrite Hadd.
  - assert (checkLocal (getFirstArg (inductionStep iv)) = None) as ->.
    { rewrite Hfirst. unfold checkLocal, getLiteralValue in *.
      by destruct (vdata one). }
    rewrite Hsecond. rewrite bool_decide_eq_false_2 by done.
    rewrite bool_decide_eq_true_2 by done.
    simpl. rewrite Hfirst, Hone. simpl. by rewrite Hadd.
Qed.

(** C9: for the induction variable of a counting loop that starts at the
    literal 0, adds the literal 1 in every iteration and repeats while the
    variable, checked before the step, is less than the literal [count], the
    lower bound is 0, the step is 1, the upper bound is [count] and the
    iteration count is [count], however the adjustment of the other
    comparisons is chosen. *)
Theorem canonical_counting_loop (open : Comparison → bool → Z) (iv : InductionVariable)
    (initial one bound : Value) (count : N) :
  initialAssignment iv = UMove initial → getLiteralValue initial = Some (Lit 0) →
  opcode (inductionStep iv) = OP_ADD →
  (checkLocal (getFirstArg (inductionStep iv)) = Some (ivLocal iv)
   ∧ getSecondArg (inductionStep iv) = Some one)
  ∨ (getFirstArg (inductionStep iv) = one
     ∧ getSecondArg (inductionStep iv) ≫= checkLocal = Some (ivLocal iv)) →
  getLiteralValue one = Some (Lit 1) →
  repeatCondition iv = Some (COMP_LT, bound) →
  getLiteralValue bound = Some (Lit (Z.of_N count)) →
  conditionCheckedBeforeStep iv = true →
  getLowerBound iv = Some (Lit 0) ∧
  getStep iv = Some (Lit 1) ∧
  getUpperBound iv = Some (Lit (Z.of_N count)) ∧
  getIterationCount open iv = Some count.
Proof.
  intros Hinitial Hzero Hadd Hshape Hone Hcondition Hbound Hbefore.
  assert (getLowerBound iv = Some (Lit 0)) as Hlower.
  { unfold getLowerBound. by rewrite Hinitial. }
  assert (getUpperBound iv = Some (Lit (Z.of_N count))) as Hupper.
  { unfold getUpperBound. rewrite Hcondition. simpl. done. }
  assert (getStep iv = Some (Lit 1)) as Hstep by (by eapply getStep_increment).
  repeat split; try done.
  unfold getIterationCount, getRange.
  rewrite Hlower, Hupper, Hstep, Hcondition, Hbefore. simpl.
  f_equal. rewrite Z.sub_0_r, Z.abs_eq by lia. rewrite N2Z.id, Z.div_1_r. lia.
Qed.

End InductionVariables.

Lemma canonical_counting_loop_witness :
  analysis.getLowerBound loopFragments.countToTen = Some (Lit 0) ∧
  analysis.getStep loopFragments.countToTen = Some (Lit 1) ∧
  analysis.getUpperBound loopFragments.countToTen = Some (Lit 10) ∧
  analysis.getIterationCount (λ _ _, 1) loopFragments.countToTen = Some 10%N.
Proof.
  apply (canonical_counting_loop (λ _ _, 1) loopFragments.countToTen
           (fragments.literal 0) (fragments.literal 1) (fragments.literal 10) 10%N);
    try reflexivity.
  left. split; reflexivity.
Defined.

(** ** More fuel never changes an answer *)

Section Fuel.
Implicit Types (st : Store) (l : LocalId) (fuel : nat).

Lemma bind_settled {A B} (m : outcome A) (f : A → outcome B) :
  m ≫= f ≠ OutOfFuel → m ≠ OutOfFuel.
Proof. by destruct m. Qed.

Lemma writerConsumer_settled (shallow deep : LocalId → outcome bool) (user : LocalUser) :
  (∀ l, shallow l ≠ OutOfFuel → deep l = shallow l) →
  writerConsumer shallow user ≠ OutOfFuel →
  writerConsumer deep user = writerConsumer shallow user.
Proof.
  intros Hrec. destruct user as [source | mi | o |]; simpl; try done.
  destruct (checkLocal source) as [l|]; [apply Hrec | done].
Qed.

Lemma forWriters_settled (shallow deep : LocalUser → outcome bool)
    (users : list (LocalUser * LocalUse)) (acc : bool) :
  (∀ user, shallow user ≠ OutOfFuel → deep user = shallow user) →
  forWriters shallow users acc ≠ OutOfFuel →
  forWriters deep users acc = forWriters shallow users acc.
Proof.
  intros Hconsumer. revert acc.
  induction users as [|[user use] rest IH]; intros acc; simpl; [done|].
  destruct (writesLocal use); [|apply IH].
  intros Hsettled. rewrite (Hconsumer user (bind_settled _ _ Hsettled)).
  destruct (shallow user) as [keep| |]; simpl in *; [by apply IH | done..].
Qed.

Lemma isDerivedFromMemory_more_fuel fuel st l :
  isDerivedFromMemory fuel st l ≠ OutOfFuel →
  isDerivedFromMemory (S fuel) st l = isDerivedFromMemory fuel st l.
Proof.
  revert l. induction fuel as [|fuel IH]; intros l; [done|].
  rewrite (isDerivedFromMemory_unfold (S fuel)), (isDerivedFromMemory_unfold fuel).
  destruct (_ || _); [done|].
  apply forWriters_settled. intros user. by apply writerConsumer_settled.
Qed.

End Fuel.

(** * Further properties of [MemoryInstruction.cpp] *)

(** ** What [isDerivedFromMemory] accepts, and when it answers *)

Section Writers.
Implicit Types (st : Store) (l : LocalId) (fuel : nat).

Lemma forWriters_true (consumer : LocalUser → outcome bool)
    (users : list (LocalUser * LocalUse)) (acc : bool) :
  forWriters consumer users acc = Done true ↔
  acc = true ∧
  ∀ user use, (user, use) ∈ users → writesLocal use = true → consumer user = Done true.
Proof.
  revert acc. induction users as [|[user use] rest IH]; intros acc; simpl.
  - split; [intros [= ->]; split; [done | by intros ? ? ?%elem_of_nil] | by intros [-> _]].
  - destruct (writesLocal use) eqn:Hw.
    + destruct (consumer user) as [keep| |] eqn:Hc; simpl.
      * rewrite IH, andb_true_iff. split.
        -- intros [[-> ->] Hrest]. split; [done|].
           intros u' use' Hin Hw'. apply elem_of_cons in Hin as [[= -> ->] | Hin]; eauto.
        -- intros [-> Hall]. split.
           ++ split; [done|]. specialize (Hall user use (list_elem_of_here _ _) Hw).
              congruence.
           ++ intros u' use' Hin. apply Hall. by right.
      * split; [done|]. intros [_ Hall].
        specialize (Hall user use (list_elem_of_here _ _) Hw). congruence.
      * split; [done|]. intros [_ Hall].
        specialize (Hall user use (list_elem_of_here _ _) Hw). congruence.
    + rewrite IH. split; intros [-> Hall]; (split; [done|]).
      * intros u' use' Hin Hw'. apply elem_of_cons in Hin as [[= -> ->] | Hin]; [congruence|eauto].
      * intros u' use' Hin. apply Hall. by right.
Qed.

Lemma forWriters_answers (consumer : LocalUser → outcome bool)
    (users : list (LocalUser * LocalUse)) (acc answer : bool) :
  forWriters consumer users acc = Done answer →
  ∀ user use, (user, use) ∈ users → writesLocal use = true → ∃ keep, consumer user = Done keep.
Proof.
  revert acc. induction users as [|[user use] rest IH]; intros acc; simpl.
  - by intros _ ? ? ?%elem_of_nil.
  - destruct (writesLocal use) eqn:Hw.
    + destruct (consumer user) as [keep| |] eqn:Hc; simpl; try done.
      intros Hrest u' use' Hin Hw'. apply elem_of_cons in Hin as [[= -> ->] | Hin]; [eauto|].
      by eapply IH.
    + intros Hrest u' use' Hin Hw'. apply elem_of_cons in Hin as [[= -> ->] | Hin]; [congruence|].
      by eapply IH.
Qed.

Lemma forWriters_settles (consumer : LocalUser → outcome bool)
    (users : list (LocalUser * LocalUse)) (acc : bool) :
  (∀ user use, (user, use) ∈ users → writesLocal use = true → consumer user ≠ OutOfFuel) →
  forWriters consumer users acc ≠ OutOfFuel.
Proof.
  revert acc. induction users as [|[user use] rest IH]; intros acc Hall; simpl; [done|].
  assert (∀ u' use', (u', use') ∈ rest → writesLocal use' = true → consumer u' ≠ OutOfFuel)
    as Hrest by (intros u' use' Hin; apply Hall; by right).
  destruct (writesLocal use) eqn:Hw; [|by apply IH].
  specialize (Hall user use (list_elem_of_here _ _) Hw).
  destruct (consumer user) as [keep| |]; simpl; [by apply IH | done..].
Qed.

Lemma is_Some_decide {A} (o : option A) :
  bool_decide (is_Some o) = match o with Some _ => true | None => false end.
Proof.
  destruct o; [by apply bool_decide_eq_true_2 | apply bool_decide_eq_false_2; by intros [? ?]].
Qed.

Lemma writerConsumer_true (recurse : LocalId → outcome bool) (user : LocalUser) :
  writerConsumer recurse user = Done true ↔
  acceptedWriter (λ l, recurse l = Done true) user.
Proof.
  destruct user as [source | mi | o |]; simpl.
  - destruct (checkLocal source) as [l|].
    + split; [eauto | by intros (l' & [= <-] & ?)].
    + split; [done | by intros (l' & ? & _)].
  - done.
  - unfold assertArgument1. rewrite is_Some_decide.
    destruct (decide (opcode o = OP_ADD ∨ opcode o = OP_SUB)) as [Hop | Hop].
    + assert (bool_decide (opcode o ≠ OP_ADD) && bool_decide (opcode o ≠ OP_SUB) = false) as ->.
      { destruct Hop as [-> | ->]; reflexivity. }
      destruct (getSecondArg o) as [second|]; simpl.
      * rewrite is_Some_decide.
        destruct (checkLocal (getFirstArg o)) as [first|],
                 (hasPointerType (getFirstArg o)),
                 (hasPointerType second) eqn:Hp2,
                 (checkLocal second) as [l2|] eqn:Hl2; simpl;
          (split;
           [ first [ discriminate
                   | intros _; (split; [done|]); exists second; (split; [done|]);
                     rewrite Hp2, Hl2;
                     first [ left; (split; [by eexists | done])
                           | right; (split; [by eexists | done]) ] ]
           | intros [_ (second' & [= <-] & Hshape)]; rewrite Hp2, Hl2 in Hshape;
             first [ reflexivity
                   | exfalso; destruct Hshape as [(Hl & ? & ?) | (Hl & ? & ?)];
                     first [ done | by destruct Hl ] ] ]).
      * destruct (match checkLocal (getFirstArg o) with Some _ => true | None => false end
                  && hasPointerType (getFirstArg o)); simpl;
          (split; [done | by intros [_ (second' & ? & _)]]).
    + assert (bool_decide (opcode o ≠ OP_ADD) && bool_decide (opcode o ≠ OP_SUB) = true) as ->.
      { apply andb_true_iff. split; apply bool_decide_eq_true_2; intros ?; apply Hop; auto. }
      split; [done | by intros [? _]].
  - done.
Qed.

(** [isDerivedFromMemory] answers [true] exactly when the base of the local is
    a global, a stack allocation or a parameter, or every instruction that
    writes the local is accepted: a move of a local that is itself derived
    from memory, a memory instruction, or an addition or subtraction of a
    pointer-typed local and an operand that is no pointer. *)
Theorem isDerivedFromMemory_true_iff fuel st l :
  isDerivedFromMemory (S fuel) st l = Done true ↔
  kind (st (getBase (st l))) ≠ KLocal ∨
  ∀ user use, (user, use) ∈ getUsers (st l) → writesLocal use = true →
              acceptedWriter (λ source, isDerivedFromMemory fuel st source = Done true) user.
Proof.
  rewrite isDerivedFromMemory_unfold.
  unfold residesInMemory, isGlobal, isStackAllocation, isParameter.
  destruct (kind (st (getBase (st l)))) eqn:Hkind; simpl;
    try (split; [intros _; by left | done]).
  rewrite forWriters_true. split.
  - intros [_ Hall]. right. intros user use Hin Hw. apply writerConsumer_true. eauto.
  - intros [? | Hall]; [done|]. split; [done|].
    intros user use Hin Hw. apply writerConsumer_true. eauto.
Qed.

End Writers.

Section Termination.
Implicit Types (st : Store) (l : LocalId) (fuel : nat).

(** A plain local that is written by a move of itself: the recursion visits
    the local again and again, and [isDerivedFromMemory] gives no answer,
    however deep it may go. *)
Theorem isDerivedFromMemory_self_move st l :
  kind (st (getBase (st l))) = KLocal →
  movedFrom st l l →
  ∀ fuel answer, isDerivedFromMemory fuel st l ≠ Done answer.
Proof.
  intros Hkind (val & use & Hin & Hw & Hval) fuel.
  induction fuel as [|fuel IH]; intros answer; [done|].
  rewrite isDerivedFromMemory_unfold.
  unfold residesInMemory, isGlobal, isStackAllocation, isParameter. rewrite Hkind. simpl.
  intros Hdone.
  destruct (forWriters_answers _ _ _ _ Hdone _ _ Hin Hw) as [keep Hkeep].
  simpl in Hkeep. rewrite Hval in Hkeep. by apply IH in Hkeep.
Qed.

Lemma writerConsumer_settles (recurse : LocalId → outcome bool) (user : LocalUser) :
  (∀ val l, user = UMove val → checkLocal val = Some l → recurse l ≠ OutOfFuel) →
  writerConsumer recurse user ≠ OutOfFuel.
Proof.
  intros Hrec. destruct user as [source | mi | o |]; simpl; try done.
  - destruct (checkLocal source) as [l|] eqn:E; [by eapply Hrec | done].
  - unfold assertArgument1.
    destruct (getSecondArg o) as [second|]; simpl;
      repeat (match goal with
              | |- context [if ?b then _ else _] => destruct b
              end; simpl); done.
Qed.

(** When the moves between locals go down a rank, so that no chain of moves
    comes back to where it started, a recursion deeper than the rank of the
    local gives an answer or an error, and every deeper recursion gives the
    same. *)
Theorem isDerivedFromMemory_terminates st (rank : LocalId → nat) :
  (∀ l source, movedFrom st l source → (rank source < rank l)%nat) →
  ∀ fuel l, (rank l < fuel)%nat →
    isDerivedFromMemory fuel st l ≠ OutOfFuel ∧
    isDerivedFromMemory fuel st l = isDerivedFromMemory (S (rank l)) st l.
Proof.
  intros Hrank.
  assert (∀ fuel l, (rank l < fuel)%nat → isDerivedFromMemory fuel st l ≠ OutOfFuel) as Hsettled.
  { induction fuel as [|fuel IH]; intros l Hl; [lia|].
    rewrite isDerivedFromMemory_unfold. destruct (_ || _); [done|].
    apply forWriters_settles. intros user use Hin Hw.
    apply writerConsumer_settles. intros val source -> Hval.
    apply IH. specialize (Hrank l source). unfold movedFrom in Hrank.
    assert (rank source < rank l)%nat by (apply Hrank; eauto). lia. }
  intros fuel l Hl. split; [by apply Hsettled|].
  induction fuel as [|fuel IH]; [lia|].
  destruct (decide (rank l = fuel)) as [-> | Hne]; [done|].
  rewrite <- IH by lia. apply isDerivedFromMemory_more_fuel. apply Hsettled. lia.
Qed.

End Termination.

Lemma isDerivedFromMemory_self_move_witness :
  movedFrom moveFragments.selfMove 0 0 ∧
  ∀ fuel answer, isDerivedFromMemory fuel moveFragments.selfMove 0 ≠ Done answer.
Proof.
  assert (movedFrom moveFragments.selfMove 0 0) as Hmoved.
  { exists (fragments.localValue 0 (fragments.intPointer AS_GLOBAL)), (mkUse 1 1).
    split; [left | split; reflexivity]. }
  split; [exact Hmoved|].
  apply (isDerivedFromMemory_self_move moveFragments.selfMove 0%nat);
    [reflexivity | exact Hmoved].
Defined.

Lemma isDerivedFromMemory_terminates_witness :
  isDerivedFromMemory 5 moveFragments.movedParameter 2 ≠ OutOfFuel ∧
  isDerivedFromMemory 5 moveFragments.movedParameter 2
  = isDerivedFromMemory 3 moveFragments.movedParameter 2.
Proof.
  apply (isDerivedFromMemory_terminates moveFragments.movedParameter
           moveFragments.movedParameterRank);
    [|unfold moveFragments.movedParameterRank; lia].
  intros l source (val & use & Hin & _ & Hval).
  destruct l as [|[|[|l]]]; simpl in Hin.
  - by apply elem_of_nil in Hin.
  - apply list_elem_of_singleton in Hin. injection Hin as -> _.
    injection Hval as <-. unfold moveFragments.movedParameterRank. lia.
  - apply list_elem_of_singleton in Hin. injection Hin as -> _.
    injection Hval as <-. unfold moveFragments.movedParameterRank. lia.
  - by apply elem_of_nil in Hin.
Defined.

(** ** The memory areas and the queries over them *)

Ltac designated_operands H :=
  simpl in H;
  repeat (apply elem_of_cons in H as [-> | H]);
  try (by apply elem_of_nil in H).

Section Areas.
Implicit Types (st : Store) (mi : MemoryInstruction) (fuel : nat).

Lemma check_passes fuel st (val : Value) {B} (k : outcome B) (r : B) :
  (checkMemoryLocation fuel st val;; k) = Done r →
  isMemoryLocation fuel st val ∧ k = Done r.
Proof.
  destruct (checkMemoryLocation fuel st val) as [[]| |] eqn:E; simpl; try done.
  intros ->. split; [by apply checkMemoryLocation_Done | done].
Qed.

Lemma local_of_memoryLocation fuel st (val : Value) :
  isMemoryLocation fuel st val → ∃ l, checkLocal val = Some l ∧ local val = Done l.
Proof.
  intros [_ (l & Hl & _)]. exists l. split; [done | by apply local_of_checkLocal].
Qed.

Lemma size_pair (a b : LocalId) : (1 ≤ size ({[a; b]} : gset LocalId) ≤ 2)%nat.
Proof.
  split.
  - assert (size ({[a; b]} : gset LocalId) ≠ 0%nat); [|lia].
    apply size_non_empty_iff. set_solver.
  - rewrite size_union_alt, size_singleton.
    pose proof (subseteq_size ({[b]} ∖ {[a]} : gset LocalId) {[b]}) as Hle.
    rewrite size_singleton in Hle. specialize (Hle ltac:(set_solver)). lia.
Qed.

(** The memory areas of an instruction are the bases of its address operands,
    each of them a validated memory location: one area, or two for a copy. *)
Theorem getMemoryAreas_bases fuel st mi (areas : gset LocalId) :
  getMemoryAreas fuel st mi = Done areas →
  (∀ val, val ∈ addressOperands mi → isMemoryLocation fuel st val) ∧
  (∀ base, base ∈ areas ↔
           ∃ val l, val ∈ addressOperands mi ∧ checkLocal val = Some l
                    ∧ base = getBase (st l)) ∧
  (1 ≤ size areas ≤ 2)%nat ∧
  (op mi ≠ COPY → size areas = 1%nat).
Proof.
  unfold getMemoryAreas, addressOperands, sourceIsAddress, destinationIsAddress.
  destruct (op mi); simpl; intros Hareas;
    repeat (apply check_passes in Hareas as [? Hareas]);
    repeat match goal with
    | H : isMemoryLocation _ _ ?v |- _ =>
        lazymatch goal with
        | _ : local v = Done _ |- _ => fail
        | _ => destruct (local_of_memoryLocation _ _ _ H) as (? & ? & ?)
        end
    end;
    repeat match goal with H : local _ = Done _ |- _ => rewrite H in Hareas; clear H end;
    simpl in Hareas; injection Hareas as <-.
  all: split; [intros val Hval; designated_operands Hval; done|].
  all: split;
    [intros base; split;
     [ intros Hbase; set_unfold in Hbase; destruct_or?; subst;
       first [ by eexists (getSource mi), _; split; [set_solver|]
             | by eexists (getDestination mi), _; split; [set_solver|] ]
     | intros (val & l & Hval & Hl & ->); designated_operands Hval; simplify_eq; set_solver ]|].
  all: split; [|first [ done | intros _; apply size_singleton ]].
  2-4: rewrite size_singleton; lia.
  apply size_pair.
Qed.

End Areas.

Lemma getMemoryAreas_bases_witness :
  (1 ≤ size ({[1%nat]} : gset LocalId) ≤ 2)%nat ∧
  ∀ base, base ∈ ({[1%nat]} : gset LocalId) ↔
          ∃ val l, val ∈ addressOperands fragments.loadInstruction
                   ∧ checkLocal val = Some l
                   ∧ base = getBase (fragments.loadedPointer l).
Proof.
  destruct (getMemoryAreas_bases 1 fragments.loadedPointer fragments.loadInstruction {[1%nat]})
    as (_ & Hbases & Hsize & _); [reflexivity|].
  split; [exact Hsize | exact Hbases].
Defined.

Section AreaQueries.
Implicit Types (st : Store) (mi : MemoryInstruction) (fuel : nat).

Lemma exists_in_pair (holds : LocalId → bool) (a b : LocalId) :
  (if holds a then true else holds b)
  = bool_decide (set_Exists (λ area, holds area = true) ({[a; b]} : gset LocalId)).
Proof.
  symmetry. destruct (holds a) eqn:Ha; [|destruct (holds b) eqn:Hb].
  - apply bool_decide_eq_true_2. exists a. split; [set_solver | done].
  - apply bool_decide_eq_true_2. exists b. split; [set_solver | done].
  - apply bool_decide_eq_false_2. intros (area & Hin & Harea).
    apply elem_of_union in Hin as [Hin | Hin]; apply elem_of_singleton in Hin; congruence.
Qed.

Lemma exists_in_singleton (holds : LocalId → bool) (a : LocalId) :
  holds a = bool_decide (set_Exists (λ area, holds area = true) ({[a]} : gset LocalId)).
Proof.
  symmetry. destruct (holds a) eqn:Ha.
  - apply bool_decide_eq_true_2. exists a. split; [set_solver | done].
  - apply bool_decide_eq_false_2. intros (area & Hin & Harea).
    apply elem_of_singleton in Hin. congruence.
Qed.

Lemma accessesWith_areas (test : Local → bool) fuel st mi :
  accessesWith (λ l, Done (test l)) fuel st mi
  = areas ← getMemoryAreas fuel st mi;
    Done (bool_decide (set_Exists (λ area, test (st area) = true) areas)).
Proof.
  unfold accessesWith, getMemoryAreas, baseOf.
  destruct (op mi);
    repeat match goal with
    | |- context [checkMemoryLocation fuel st ?v] =>
        destruct (checkMemoryLocation fuel st v) as [[]| |] eqn:?; simpl; try done
    end;
    repeat match goal with
    | H : checkMemoryLocation _ _ _ = Done () |- _ =>
        apply checkMemoryLocation_Done, local_of_memoryLocation in H as (? & _ & ->)
    end; simpl.
  - rewrite <- (exists_in_pair (λ area, test (st area))). by destruct (test _).
  - f_equal. apply (exists_in_singleton (λ area, test (st area))).
  - f_equal. apply (exists_in_singleton (λ area, test (st area))).
  - f_equal. apply (exists_in_singleton (λ area, test (st area))).
Qed.

(** [accessesConstantGlobal] and [accessesStackAllocation] are
    [getMemoryAreas] followed by a search of the areas for a constant global,
    for a stack allocation: they throw what [getMemoryAreas] throws, and
    answer [true] exactly when one of the memory areas is of that kind. *)
Theorem accesses_search_memory_areas fuel st mi :
  accessesConstantGlobal fuel st mi
  = (areas ← getMemoryAreas fuel st mi;
     Done (bool_decide (set_Exists (λ area, isConstantGlobal (st area) = true) areas))) ∧
  accessesStackAllocation fuel st mi
  = (areas ← getMemoryAreas fuel st mi;
     Done (bool_decide (set_Exists (λ area, isStackAllocation (st area) = true) areas))).
Proof. split; apply accessesWith_areas. Qed.

End AreaQueries.

(** ** Lowering into the VPM and the kind of memory accessed *)

Section Lowering.
Context {hw : Periphery}.
Implicit Types (st : Store) (mi : MemoryInstruction) (fuel : nat).

Lemma canMoveAddressIntoVPM_kinds (base : Local) :
  canMoveAddressIntoVPM base = true →
  isConstantGlobal base = true
  ∨ isGlobalWithLocalAddressSpace base = Done true
  ∨ isStackAllocation base = true.
Proof.
  unfold canMoveAddressIntoVPM, isConstantGlobal, isGlobalWithLocalAddressSpace,
    asGlobal, isGlobal, isParameter, isStackAllocation.
  destruct (isStructOrArrayOfStructs _); [done|].
  destruct (_ <? _); [done|].
  destruct (kind base) as [| |[]|]; simpl; try done; auto.
  destruct (getPointerType (type base)) as [[pointee space]|]; [|done].
  intros ->. auto.
Qed.

Lemma canMoveIntoVPM_address_true fuel st (val : Value) :
  canMoveIntoVPM fuel st val true = Done true →
  checkMemoryLocation fuel st val = Done () ∧
  ∃ l, local val = Done l ∧ canMoveAddressIntoVPM (st (getBase (st l))) = true.
Proof.
  unfold canMoveIntoVPM. intros [Hmem Hrest]%check_passes.
  split; [by apply checkMemoryLocation_Done|].
  destruct (local_of_memoryLocation _ _ _ Hmem) as (l & _ & Hl).
  rewrite Hl in Hrest. simpl in Hrest. exists l. split; [done | congruence].
Qed.

(** A READ whose source, a WRITE or FILL whose destination can be moved into
    the VPM accesses a constant global, local memory or a stack allocation:
    memory behind a parameter, or behind a global of another address space
    that is not constant, is never lowered. *)
Theorem lowering_accesses_private_memory fuel st mi :
  (op mi = READ ∧ canMoveSourceIntoVPM fuel st mi = Done true)
  ∨ ((op mi = WRITE ∨ op mi = FILL) ∧ canMoveDestinationIntoVPM fuel st mi = Done true) →
  accessesConstantGlobal fuel st mi = Done true
  ∨ accessesLocalMemory fuel st mi = Done true
  ∨ accessesStackAllocation fuel st mi = Done true.
Proof.
  unfold canMoveSourceIntoVPM, canMoveDestinationIntoVPM,
    accessesConstantGlobal, accessesLocalMemory, accessesStackAllocation, accessesWith, baseOf.
  intros [[Hop Hmove] | [[Hop | Hop] Hmove]]; rewrite Hop in *; simpl in Hmove;
    try (destruct (checkSingleValue (getNumEntries mi)) as [[]| |]; simpl in Hmove; try done);
    apply canMoveIntoVPM_address_true in Hmove as (-> & l & -> & Hbase); simpl;
    destruct (canMoveAddressIntoVPM_kinds _ Hbase) as [-> | [-> | ->]]; auto.
Qed.

(** An instruction that the constructor has built holds the entry count one
    whenever it is a READ or a WRITE, so that the check of the count in
    [canMoveSourceIntoVPM] and [canMoveDestinationIntoVPM] passes: they are
    [canMoveIntoVPM] on the operand, as an address or as a local value. *)
Theorem constructed_count_check (o : MemoryOperation) (dest src numEntries : Value) fuel st mi :
  newMemoryInstruction o dest src numEntries = Done mi →
  (o = READ ∨ o = WRITE → checkSingleValue (getNumEntries mi) = Done ()) ∧
  canMoveSourceIntoVPM fuel st mi = canMoveIntoVPM fuel st src (sourceIsAddress o) ∧
  canMoveDestinationIntoVPM fuel st mi = canMoveIntoVPM fuel st dest (destinationIsAddress o).
Proof.
  unfold newMemoryInstruction, canMoveSourceIntoVPM, canMoveDestinationIntoVPM,
    sourceIsAddress, destinationIsAddress.
  destruct (Value_eqb numEntries INT_ONE) eqn:Hcount; simpl.
  - intros [= <-]. simpl. apply Value_eqb_INT_ONE in Hcount.
    assert (checkSingleValue numEntries = Done ()) as Hsingle.
    { unfold checkSingleValue. by rewrite bool_decide_eq_true_2. }
    rewrite Hsingle. split; [done|].
    split; by destruct (bool_decide (o = READ) || bool_decide (o = WRITE)).
  - destruct o; simpl; try done; intros [= <-]; simpl;
      (split; [by intros [?|?] | done]).
Qed.

End Lowering.

Lemma lowering_accesses_private_memory_witness :
  accessesConstantGlobal 1 moveFragments.parametersAndStack moveFragments.storeToStack = Done true
  ∨ accessesLocalMemory 1 moveFragments.parametersAndStack moveFragments.storeToStack = Done true
  ∨ accessesStackAllocation 1 moveFragments.parametersAndStack moveFragments.storeToStack
    = Done true.
Proof.
  apply (lowering_accesses_private_memory (hw := fragments.periphery) 1).
  right. split; [by left | reflexivity].
Defined.

Lemma constructed_count_check_witness :
  canMoveSourceIntoVPM (hw := fragments.periphery) 1 fragments.loadedPointer
    fragments.loadInstruction
  = canMoveIntoVPM (hw := fragments.periphery) 1 fragments.loadedPointer
      (getSource fragments.loadInstruction) true.
Proof.
  apply (constructed_count_check (hw := fragments.periphery) READ
           (getDestination fragments.loadInstruction) (getSource fragments.loadInstruction)
           INT_ONE 1 fragments.loadedPointer fragments.loadInstruction).
  reflexivity.
Defined.

(** ** Copies of instructions *)

(** Copying an instruction that the constructor has built never fails, as long
    as the renaming leaves the content of every value that is no local
    alone: the copy is the same operation over the renamed operands. *)
Theorem copyFor_constructed (renameValue : Value → Value) (o : MemoryOperation)
    (dest src numEntries : Value) (mi : MemoryInstruction) :
  (∀ val, checkLocal val = None → vdata (renameValue val) = vdata val) →
  newMemoryInstruction o dest src numEntries = Done mi →
  copyFor renameValue mi
  = Done (mkMemoryInstruction o (renameValue dest) (renameValue src) (renameValue numEntries)).
Proof.
  intros Hrename. unfold copyFor, newMemoryInstruction.
  destruct (Value_eqb numEntries INT_ONE) eqn:Hcount; simpl.
  - intros [= <-]. simpl.
    assert (Value_eqb (renameValue numEntries) INT_ONE = true) as ->; [|done].
    unfold Value_eqb in *. apply bool_decide_eq_true in Hcount. apply bool_decide_eq_true_2.
    rewrite Hrename; [done|]. unfold checkLocal. by rewrite Hcount.
  - destruct o; simpl; try done; intros [= <-]; simpl; by destruct (negb _).
Qed.

Lemma copyFor_constructed_witness :
  copyFor moveFragments.tenUp fragments.loadInstruction
  = Done (mkMemoryInstruction READ
            (fragments.localValue 10 (fragments.intPointer AS_GLOBAL))
            (fragments.localValue 11 (PointerType (fragments.intPointer AS_GLOBAL) AS_GLOBAL))
            INT_ONE).
Proof.
  apply (copyFor_constructed moveFragments.tenUp READ
           (getDestination fragments.loadInstruction)
           (getSource fragments.loadInstruction) INT_ONE fragments.loadInstruction).
  - intros val. unfold checkLocal, moveFragments.tenUp.
    destruct (vdata val) eqn:E; simpl; congruence.
  - reflexivity.
Defined.

(** ** Local memory *)

Section LocalMemory.
Implicit Types (st : Store) (mi : MemoryInstruction) (fuel : nat).

Lemma isGlobalWithLocalAddressSpace_pointer (l : Local) :
  (isGlobal l = true → is_Some (getPointerType (type l))) →
  isGlobalWithLocalAddressSpace l = Done (inLocalAddressSpace l).
Proof.
  unfold isGlobalWithLocalAddressSpace, inLocalAddressSpace.
  destruct (isGlobal l); [|done]. intros Hpointer.
  destruct (Hpointer eq_refl) as [[pointee space] ->]. done.
Qed.

(** As long as every global among the bases of the address operands has a
    pointer type, which [isGlobalWithLocalAddressSpace] takes for granted,
    [accessesLocalMemory] is [getMemoryAreas] followed by a search of the
    areas for a global in the local address space. *)
Theorem accessesLocalMemory_search_memory_areas fuel st mi :
  (∀ val l, val ∈ addressOperands mi → checkLocal val = Some l →
            isGlobal (st (getBase (st l))) = true →
            is_Some (getPointerType (type (st (getBase (st l)))))) →
  accessesLocalMemory fuel st mi
  = (areas ← getMemoryAreas fuel st mi;
     Done (bool_decide (set_Exists (λ area, inLocalAddressSpace (st area) = true) areas))).
Proof.
  intros Hpointer. rewrite <- accessesWith_areas.
  revert Hpointer.
  unfold accessesLocalMemory, accessesWith, baseOf, addressOperands,
    sourceIsAddress, destinationIsAddress.
  destruct (op mi); simpl; intros Hpointer;
    repeat match goal with
    | |- context [checkMemoryLocation fuel st ?v] =>
        destruct (checkMemoryLocation fuel st v) as [[]| |] eqn:?; simpl; try done
    end;
    repeat match goal with
    | H : checkMemoryLocation _ _ _ = Done () |- _ =>
        apply checkMemoryLocation_Done, local_of_memoryLocation in H as (? & ? & ->)
    end; simpl;
    rewrite ?isGlobalWithLocalAddressSpace_pointer
      by (eapply Hpointer; [|done]; set_solver);
    done.
Qed.

End LocalMemory.

Lemma accessesLocalMemory_search_memory_areas_witness :
  accessesLocalMemory 1 moveFragments.localScratch moveFragments.loadScratch
  = (areas ← getMemoryAreas 1 moveFragments.localScratch moveFragments.loadScratch;
     Done (bool_decide
             (set_Exists
                (λ area, inLocalAddressSpace (moveFragments.localScratch area) = true) areas))).
Proof.
  apply (accessesLocalMemory_search_memory_areas 1 moveFragments.localScratch
           moveFragments.loadScratch).
  intros val l Hval. simpl in Hval. apply list_elem_of_singleton in Hval as ->.
  intros [= <-] _. by eexists.
Defined.

Example accessesLocalMemory_scratch :
  accessesLocalMemory 1 moveFragments.localScratch moveFragments.loadScratch = Done true.
Proof. reflexivity. Qed.

(** ** The element types of a copy *)

Section CopyTypes.
Context {hw : Periphery}.
Implicit Types (st : Store) (mi : MemoryInstruction) (fuel : nat).

(** For a COPY between two memory locations the plain element types are those
    of the pointers.  With a literal count the sized types are arrays of that
    many entries on both sides, the count read as an [unsigned]; with a count
    that is no literal both sized queries throw, although the plain ones
    answer. *)
Theorem copy_element_types fuel st mi :
  op mi = COPY →
  isMemoryLocation fuel st (getSource mi) →
  isMemoryLocation fuel st (getDestination mi) →
  getSourceElementType false fuel st mi = Done (getElementType (vtype (getSource mi))) ∧
  getDestinationElementType false fuel st mi
  = Done (getElementType (vtype (getDestination mi))) ∧
  match getLiteralValue (getNumEntries mi) with
  | Some count =>
      getSourceElementType true fuel st mi
      = Done (ArrayType (getElementType (vtype (getSource mi))) (unsignedInt count)) ∧
      getDestinationElementType true fuel st mi
      = Done (ArrayType (getElementType (vtype (getDestination mi))) (unsignedInt count))
  | None =>
      (∃ e, getSourceElementType true fuel st mi = Throw e ∧ errStep e = GENERAL) ∧
      (∃ e, getDestinationElementType true fuel st mi = Throw e ∧ errStep e = GENERAL)
  end.
Proof.
  intros Hop Hsource%checkMemoryLocation_Done Hdestination%checkMemoryLocation_Done.
  unfold getSourceElementType, getDestinationElementType, sizedElementType.
  rewrite Hop, Hsource, Hdestination. simpl.
  split; [done|]. split; [done|].
  destruct (getLiteralValue (getNumEntries mi)); [done|].
  split; eexists; done.
Qed.

End CopyTypes.

Lemma copy_element_types_witness :
  getSourceElementType (hw := fragments.periphery) false 1 moveFragments.twoParameters
    moveFragments.dynamicCopy = Done TYPE_INT32 ∧
  ∃ e, getSourceElementType (hw := fragments.periphery) true 1 moveFragments.twoParameters
         moveFragments.dynamicCopy = Throw e ∧ errStep e = GENERAL.
Proof.
  destruct (copy_element_types (hw := fragments.periphery) 1 moveFragments.twoParameters
              moveFragments.dynamicCopy) as (Hplain & _ & Hsized & _).
  - reflexivity.
  - split; [reflexivity|]. exists 1%nat. split; reflexivity.
  - split; [reflexivity|]. exists 2%nat. split; reflexivity.
  - split; [exact Hplain | exact Hsized].
Defined.

(** * Sources and results of the precompilation steps *)

Section PrecompilationSteps.
Import precompilation.
Context {ops : CompilationDataOps}.

(** Turning a result into the source of the next step leaves the result
    empty.  It fails, with the message of the source, exactly for a result
    without data; otherwise the source stands for the same data: the same
    file path, the same path with a default, the same text, and for data in a
    file neither a reader of the source nor a writer of the result unless
    forced. *)
Theorem sourceOfResult_same_data (res : PrecompilationResult) :
  resultHasData (sourceOfResult res).2 = false ∧
  match (sourceOfResult res).1 with
  | Built source =>
      resultHasData res = true ∧
      getSourceFilePath source = getResultFilePath res ∧
      (∀ defaultPath, getInputPath source defaultPath = getOutputPath res defaultPath) ∧
      sourceToString source = resultToString res ∧
      (∀ data, resultData res = Some data → isFileCompilationData data = true →
               getBufferReader false source = None ∧ getBufferWriter false res = None)
  | PrecompilationError message =>
      resultHasData res = false ∧ message = "Source has no data!"%string
  end.
Proof.
  split; [done|].
  unfold sourceOfResult, newSource, resultHasData, getSourceFilePath, getResultFilePath,
    getInputPath, getOutputPath, sourceToString, resultToString, getBufferReader,
    getBufferWriter, getSourceFilePath, getResultFilePath.
  destruct res as [[data|]]; simpl; [|done].
  repeat split; try done;
    match goal with
    | Hsame : Some _ = Some _, Hfile : isFileCompilationData _ = true |- _ =>
        injection Hsame as <-; by rewrite Hfile
    end.
Qed.

(** A result that has been built holds data; releasing it hands out that data,
    from which the same result can be built again, and leaves an empty result:
    no file path, the default as output path, no writer even when forced. *)
Theorem release_leaves_empty (data : option TypedCompilationData) (r : PrecompilationResult) :
  newResult data = Built r →
  resultHasData r = true ∧
  (release r).1 = data ∧
  newResult (release r).1 = Built r ∧
  resultHasData (release r).2 = false ∧
  getResultFilePath (release r).2 = None ∧
  (∀ defaultPath, getOutputPath (release r).2 defaultPath = defaultPath) ∧
  (∀ force, getBufferWriter force (release r).2 = None) ∧
  resultToString (release r).2 = "(empty)"%string.
Proof.
  unfold newResult. destruct data as [data|]; [|done]. intros [= <-].
  repeat split; try done. intros force. unfold getBufferWriter. simpl.
  by rewrite andb_false_r.
Qed.

End PrecompilationSteps.

Lemma release_leaves_empty_witness :
  (precompilation.release
     (precompilation.mkResult (ops := precompilation.sampleOps)
        (Some (precompilation.InFile "kernel.bc")))).1
  = Some (precompilation.InFile "kernel.bc") ∧
  precompilation.resultHasData
    (precompilation.release
       (precompilation.mkResult (ops := precompilation.sampleOps)
          (Some (precompilation.InFile "kernel.bc")))).2 = false.
Proof.
  destruct (release_leaves_empty (ops := precompilation.sampleOps)
              (Some (precompilation.InFile "kernel.bc"))
              (precompilation.mkResult (ops := precompilation.sampleOps)
                 (Some (precompilation.InFile "kernel.bc"))))
    as (_ & Hdata & _ & Hempty & _); [reflexivity|].
  split; [exact Hdata | exact Hempty].
Defined.

(** ** When the memory areas are answered *)

Section AreasAnswered.
Implicit Types (st : Store) (mi : MemoryInstruction) (fuel : nat).

(** [getMemoryAreas] answers exactly when every address operand of the
    instruction is a pointer-typed local that [isDerivedFromMemory] accepts. *)
Theorem getMemoryAreas_answers_iff fuel st mi :
  (∃ areas, getMemoryAreas fuel st mi = Done areas) ↔
  ∀ val, val ∈ addressOperands mi → isMemoryLocation fuel st val.
Proof.
  split.
  - intros [areas Hareas]. revert Hareas.
    unfold getMemoryAreas, addressOperands, sourceIsAddress, destinationIsAddress.
    destruct (op mi); simpl; intros Hareas;
      repeat (apply check_passes in Hareas as [? Hareas]);
      intros val Hval; designated_operands Hval; done.
  - unfold getMemoryAreas, addressOperands, sourceIsAddress, destinationIsAddress.
    destruct (op mi); simpl; intros Hall;
      repeat match goal with
      | |- context [checkMemoryLocation fuel st ?v] =>
          let Hv := fresh "Hv" in
          assert (isMemoryLocation fuel st v) as Hv by (apply Hall; set_solver);
          rewrite (proj2 (checkMemoryLocation_Done fuel st v) Hv);
          destruct (local_of_memoryLocation _ _ _ Hv) as (? & _ & ->)
      end; simpl; by eexists.
Qed.

End AreasAnswered.

(** * The derived queries follow the validation of their operands *)

Section QueriesFollowValidation.
Context {hw : Periphery}.
Implicit Types (st : Store) (mi : MemoryInstruction) (fuel : nat).

Lemma bind_Done {A B} (m : outcome A) (f : A → outcome B) (r : B) :
  m ≫= f = Done r → ∃ a, m = Done a ∧ f a = Done r.
Proof. destruct m as [a| |]; simpl; [eauto | done..]. Qed.

(** What [checkMemoryLocation] rejects, and with which error. *)
Lemma checkMemoryLocation_rejects fuel st (val : Value) :
  hasPointerType val = false
  ∨ checkLocal val = None
  ∨ (∃ l, checkLocal val = Some l ∧ isDerivedFromMemory fuel st l = Done false) →
  ∃ e, checkMemoryLocation fuel st val = Throw e ∧ errStep e = LLVM_2_IR.
Proof.
  unfold checkMemoryLocation.
  intros [Hpointer | [Hlocal | (l & Hlocal & Hderived)]].
  - rewrite Hpointer. simpl. by eexists.
  - destruct (negb (hasPointerType val)); [by eexists|]. rewrite Hlocal. by eexists.
  - destruct (negb (hasPointerType val)); [by eexists|].
    rewrite Hlocal, Hderived. simpl. by eexists.
Qed.

Lemma query_throws_first fuel st mi (q : Query) (before after : list Value) (val : Value)
    (e : CompilationError) :
  designatedOperands q mi = before ++ val :: after →
  (∀ v, v ∈ before → isMemoryLocation fuel st v) →
  checkMemoryLocation fuel st val = Throw e →
  runQuery q fuel st mi = Throw e.
Proof.
  intros Hoperands Hbefore Hthrow.
  assert (∀ v, v ∈ before → checkMemoryLocation fuel st v = Done ()) as Hdone.
  { intros v Hv. by apply checkMemoryLocation_Done, Hbefore. }
  clear Hbefore. revert Hoperands.
  destruct q; unfold runQuery, designatedOperands, addressOperands, sourceIsAddress,
    destinationIsAddress, accessesConstantGlobal, accessesStackAllocation,
    accessesLocalMemory, accessesWith, getMemoryAreas, getSourceElementType,
    getDestinationElementType;
    destruct (op mi); simpl; intros Hoperands;
    (destruct before as [|first before];
     [ simpl in Hoperands; simplify_eq; by rewrite Hthrow
     | destruct before as [|second before];
       [ simpl in Hoperands; simplify_eq;
         rewrite (Hdone _ (list_elem_of_here _ _)); simpl; by rewrite Hthrow
       | simpl in Hoperands; simplify_eq; by destruct before ] ]).
Qed.

Lemma query_answers_validated fuel st mi (q : Query) (val : Value) (answer : unit) :
  val ∈ designatedOperands q mi →
  runQuery q fuel st mi = Done answer →
  isMemoryLocation fuel st val.
Proof.
  intros Hval Hanswer. revert Hval Hanswer.
  destruct q; unfold runQuery; intros Hval Hanswer;
    apply bind_Done in Hanswer as (result & Hanswer & _); revert Hval Hanswer;
    unfold designatedOperands, addressOperands, sourceIsAddress,
      destinationIsAddress, accessesConstantGlobal, accessesStackAllocation,
      accessesLocalMemory, accessesWith, getMemoryAreas, getSourceElementType,
      getDestinationElementType;
    destruct (op mi); simpl; intros Hval Hanswer;
    designated_operands Hval;
    repeat (apply check_passes in Hanswer as [? Hanswer]); done.
Qed.

(** C6: on every call each of the six derived queries runs
    [checkMemoryLocation], on the store as it is at the call, over the
    operands that its operation designates as memory locations, in their
    order.  The first of them that the validation rejects makes the query
    throw the error of the validation and return no answer; the validation
    rejects, with an error of the step [LLVM_2_IR], a value that has no
    pointer type, that is no local, or for whose local [isDerivedFromMemory]
    answers [false].  A query answers only if every designated operand is a
    pointer-typed local that [isDerivedFromMemory] accepts.  The instruction
    holds no classification of its own. *)
Theorem queries_follow_validation (q : Query) fuel st mi :
  (∀ before val after e,
     designatedOperands q mi = before ++ val :: after →
     (∀ v, v ∈ before → isMemoryLocation fuel st v) →
     checkMemoryLocation fuel st val = Throw e →
     runQuery q fuel st mi = Throw e) ∧
  (∀ val,
     hasPointerType val = false
     ∨ checkLocal val = None
     ∨ (∃ l, checkLocal val = Some l ∧ isDerivedFromMemory fuel st l = Done false) →
     ∃ e, checkMemoryLocation fuel st val = Throw e ∧ errStep e = LLVM_2_IR) ∧
  (∀ val, val ∈ designatedOperands q mi → ¬ isMemoryLocation fuel st val →
          ∀ answer, runQuery q fuel st mi ≠ Done answer).
Proof.
  split; [intros before val after e; apply query_throws_first|].
  split; [intros val; apply checkMemoryLocation_rejects|].
  intros val Hval Hbad answer Hanswer. apply Hbad.
  by eapply query_answers_validated.
Qed.

End QueriesFollowValidation.

Lemma queries_follow_validation_witness :
  accessesConstantGlobal 1 fragments.loadedPointer fragments.loadInstruction = Done false ∧
  ∃ e, runQuery (hw := fragments.periphery) QAccessesConstantGlobal 2
         fragments.pointerPlusOffset fragments.loadInstruction = Throw e
       ∧ errStep e = LLVM_2_IR.
Proof.
  split; [reflexivity|].
  destruct (queries_follow_validation (hw := fragments.periphery) QAccessesConstantGlobal 2
              fragments.pointerPlusOffset fragments.loadInstruction) as (Hthrows & Hrejects & _).
  destruct (Hrejects (getSource fragments.loadInstruction)) as (e & Hcheck & Hstep).
  { right. right. exists 1%nat. split; reflexivity. }
  exists e. split; [|exact Hstep].
  apply (Hthrows [] (getSource fragments.loadInstruction) []); [reflexivity | | exact Hcheck].
  intros v Hv. by apply elem_of_nil in Hv.
Defined.

(** In [storageFragments.twoLoads] the source of the second READ is the
    pointer that the first READ has read from memory: a plain local, its own
    base, that no writer leads back to a global, a stack allocation or a
    parameter.  The validation accepts it and the query answers. *)
Lemma queries_answer_without_origin :
  registered storageFragments.twoLoads storageFragments.loadThrough ∧
  getSource storageFragments.loadThrough
    ∈ designatedOperands QAccessesConstantGlobal storageFragments.loadThrough ∧
  checkLocal (getSource storageFragments.loadThrough) = Some 0%nat ∧
  ¬ tracesToOrigin storageFragments.twoLoads 0 ∧
  accessesConstantGlobal 1 storageFragments.twoLoads storageFragments.loadThrough = Done false ∧
  runQuery (hw := fragments.periphery) QAccessesConstantGlobal 1
    storageFragments.twoLoads storageFragments.loadThrough = Done ().
Proof.
  split.
  { intros val l [-> | ->] [= <-].
    - exists fragments.reader. simpl. right. left.
    - exists fragments.writer. simpl. left. }
  split; [simpl; left|]. split; [reflexivity|]. split; [|split; reflexivity].
  intros Htraces. inversion Htraces as [l Hkind | l user use source Hin Hw Hsource _]; subst.
  - by apply Hkind.
  - simpl in Hin.
    apply elem_of_cons in Hin as [[= -> ->] | Hin]; [done|].
    apply list_elem_of_singleton in Hin as [= -> ->]. done.
Qed.

(** In [storageFragments.cycle] the source of the READ is written by a move of
    itself: the validation does not come to an end, and neither does the
    query, which gives neither an answer nor an error. *)
Lemma queries_on_cycle (fuel : nat) :
  isDerivedFromMemory fuel storageFragments.cycle 0 = OutOfFuel ∧
  runQuery (hw := fragments.periphery) QAccessesConstantGlobal fuel
    storageFragments.cycle storageFragments.loadFromCycle = OutOfFuel.
Proof.
  assert (isDerivedFromMemory fuel storageFragments.cycle 0 = OutOfFuel) as Hcycle.
  { induction fuel as [|fuel IH]; [done|].
    rewrite isDerivedFromMemory_unfold. simpl. by rewrite IH. }
  split; [done|].
  unfold runQuery, accessesConstantGlobal, accessesWith, checkMemoryLocation. simpl.
  by rewrite Hcycle.
Qed.
